(** * transco_select: antenna selector (Arduino MEGA 2560 + Nextion display)

    Shallow embedding of [transco_select.ino].  The sketch is a single
    cooperative loop over global state; the embedding threads one record,
    [world], which holds the sketch's globals and function statics together
    with the peripherals the sketch talks to (digital output latches, the
    EEPROM cells, the millisecond clock and both directions of Serial3).

    Integers are [Z] with the wrap-around of the AVR types written out
    ([uint8_t], [int8_t], and [unsigned long], which is 32 bits wide on the
    ATmega2560).  Antenna indices, which only ever index the fixed-size
    arrays, are [nat]. *)

From Stdlib Require Import ZArith Lia List String Ascii Bool.
From stdpp Require Import base tactics option list gmap functions.

Local Open Scope Z_scope.

(** ** Machine integers *)

Definition u8 (x : Z) : Z := x mod 256.
Definition u32 (x : Z) : Z := x mod 2 ^ 32.

(** The cast [(int8_t)x] of a [uint8_t]. *)
Definition i8 (x : Z) : Z :=
  let y := x mod 256 in if y <? 128 then y else y - 256.

(** ** Build-time constants (lines 16-30) *)

Definition NB_ANTENNES : nat := 8.
Definition FIRST_BTN_ID : Z := 2.
Definition EEPROM_MAGIC_ADDR : Z := 0.
Definition EEPROM_SELECTED_ADDR : Z := 1.
Definition EEPROM_MAGIC_VALUE : Z := 0xA5.
Definition relayPins : list Z := [22; 23; 24; 25; 26; 27; 28; 29].

Definition LOW : bool := false.
Definition HIGH : bool := true.

Inductive pin_mode : Set := INPUT | OUTPUT.

(** [relayPins[i]] *)
Definition relayPin (i : nat) : Z := nth i relayPins 0.

(** ** State *)

Record world : Type := World {
  pins : gmap Z bool;            (* level last written to each digital pin *)
  modes : gmap Z pin_mode;       (* direction of each digital pin *)
  relayOffTime : list Z;         (* unsigned long relayOffTime[NB_ANTENNES] *)
  antenneSelectionnee : Z;       (* int8_t antenneSelectionnee *)
  pos : Z;                       (* static uint8_t pos *)
  buffer : list Z;               (* static uint8_t buffer[7] *)
  eeprom : Z -> Z;               (* EEPROM cells, by address *)
  horloge : Z;                   (* what millis() returns *)
  rx : list Z;                   (* bytes waiting in Serial3's receive queue *)
  tx : list Z                    (* bytes written to Serial3 so far *)
}.

Definition set_pins (f : gmap Z bool -> gmap Z bool) (w : world) : world :=
  World (f (pins w)) (modes w) (relayOffTime w) (antenneSelectionnee w)
        (pos w) (buffer w) (eeprom w) (horloge w) (rx w) (tx w).
Definition set_modes (f : gmap Z pin_mode -> gmap Z pin_mode) (w : world) : world :=
  World (pins w) (f (modes w)) (relayOffTime w) (antenneSelectionnee w)
        (pos w) (buffer w) (eeprom w) (horloge w) (rx w) (tx w).
Definition set_relayOffTime (f : list Z -> list Z) (w : world) : world :=
  World (pins w) (modes w) (f (relayOffTime w)) (antenneSelectionnee w)
        (pos w) (buffer w) (eeprom w) (horloge w) (rx w) (tx w).
Definition set_antenneSelectionnee (v : Z) (w : world) : world :=
  World (pins w) (modes w) (relayOffTime w) v
        (pos w) (buffer w) (eeprom w) (horloge w) (rx w) (tx w).
Definition set_pos (v : Z) (w : world) : world :=
  World (pins w) (modes w) (relayOffTime w) (antenneSelectionnee w)
        v (buffer w) (eeprom w) (horloge w) (rx w) (tx w).
Definition set_buffer (f : list Z -> list Z) (w : world) : world :=
  World (pins w) (modes w) (relayOffTime w) (antenneSelectionnee w)
        (pos w) (f (buffer w)) (eeprom w) (horloge w) (rx w) (tx w).
Definition set_eeprom (f : (Z -> Z) -> Z -> Z) (w : world) : world :=
  World (pins w) (modes w) (relayOffTime w) (antenneSelectionnee w)
        (pos w) (buffer w) (f (eeprom w)) (horloge w) (rx w) (tx w).
Definition set_horloge (v : Z) (w : world) : world :=
  World (pins w) (modes w) (relayOffTime w) (antenneSelectionnee w)
        (pos w) (buffer w) (eeprom w) v (rx w) (tx w).
Definition set_rx (v : list Z) (w : world) : world :=
  World (pins w) (modes w) (relayOffTime w) (antenneSelectionnee w)
        (pos w) (buffer w) (eeprom w) (horloge w) v (tx w).
Definition set_tx (f : list Z -> list Z) (w : world) : world :=
  World (pins w) (modes w) (relayOffTime w) (antenneSelectionnee w)
        (pos w) (buffer w) (eeprom w) (horloge w) (rx w) (f (tx w)).

(** Statements run left to right. *)
Notation "c1 ;> c2" := (fun w : world => c2 (c1 w))
  (at level 100, right associativity, only parsing).

(** [for (uint8_t i = 0; i < n; i++) body(i);] *)
Definition for_loop (n : nat) (body : nat -> world -> world) (w : world) : world :=
  foldl (fun acc i => body i acc) w (seq 0 n).

(** ** Arduino core primitives *)

Definition digitalWrite (pin : Z) (v : bool) : world -> world :=
  set_pins (<[pin := v]>).

Definition pinMode (pin : Z) (m : pin_mode) : world -> world :=
  set_modes (<[pin := m]>).

Definition millis (w : world) : Z := horloge w.

Definition delay (ms : Z) (w : world) : world :=
  set_horloge (u32 (horloge w + ms)) w.

Definition octets (s : string) : list Z :=
  (fun c => Z.of_N (N_of_ascii c)) <$> list_ascii_of_string s.

(** Decimal digits of a [uint8_t], most significant first, as
    [Print::print(unsigned char)] emits them. *)
Definition decimal (n : Z) : list Z :=
  if n <? 10 then [48 + n]
  else if n <? 100 then [48 + n / 10; 48 + n mod 10]
  else [48 + n / 100; 48 + (n / 10) mod 10; 48 + n mod 10].

Definition Serial3_print (s : string) : world -> world :=
  set_tx (fun t => t ++ octets s).
Definition Serial3_print_u8 (n : Z) : world -> world :=
  set_tx (fun t => t ++ decimal n).
Definition Serial3_write (b : Z) : world -> world :=
  set_tx (fun t => t ++ [b]).

Definition EEPROM_read (a : Z) (w : world) : Z := eeprom w a.

(** [EEPROM.update] writes the cell only when the value differs. *)
Definition EEPROM_update (a v : Z) (w : world) : world :=
  if EEPROM_read a w =? v then w else set_eeprom (<[a := v]>) w.

(** ** The sketch *)

(** Lines 41-46. *)
Definition setBoutonOff (index : nat) : world -> world :=
  Serial3_print "bt" ;>
  Serial3_print_u8 (Z.of_nat index) ;>
  Serial3_print ".val=0" ;>
  Serial3_write 0xFF ;> Serial3_write 0xFF ;> Serial3_write 0xFF.

(** Lines 51-56. *)
Definition setBoutonOn (index : nat) : world -> world :=
  Serial3_print "bt" ;>
  Serial3_print_u8 (Z.of_nat index) ;>
  Serial3_print ".val=1" ;>
  Serial3_write 0xFF ;> Serial3_write 0xFF ;> Serial3_write 0xFF.

(** Lines 64-68: one iteration of the loop of [exclusivite]. *)
Definition exclusivite_body (actif i : nat) (w : world) : world :=
  if negb (i =? actif)%nat then
    (digitalWrite (relayPin i) LOW ;>
     set_relayOffTime (<[i := 0]>) ;>
     setBoutonOff i) w
  else w.

(** Lines 62-70. *)
Definition exclusivite (actif : nat) : world -> world :=
  for_loop NB_ANTENNES (exclusivite_body actif).

(** Lines 80-84: one iteration of the loop of [gererTemporisations]. *)
Definition gererTemporisations_body (now : Z) (i : nat) (w : world) : world :=
  if negb (nth i (relayOffTime w) 0 =? 0) && (nth i (relayOffTime w) 0 <=? now) then
    (digitalWrite (relayPin i) LOW ;>
     set_relayOffTime (<[i := 0]>)) w
  else w.

(** Lines 76-86. *)
Definition gererTemporisations (w : world) : world :=
  let now := millis w in
  for_loop NB_ANTENNES (gererTemporisations_body now) w.

(** Lines 91-94. *)
Definition sauvegarderSelection (idx : nat) : world -> world :=
  EEPROM_update EEPROM_MAGIC_ADDR EEPROM_MAGIC_VALUE ;>
  EEPROM_update EEPROM_SELECTED_ADDR (Z.of_nat idx).

(** Lines 100-112. *)
Definition lireSelectionEEPROM (w : world) : Z :=
  let magic := EEPROM_read EEPROM_MAGIC_ADDR w in
  if negb (magic =? EEPROM_MAGIC_VALUE) then -1
  else
    let val := EEPROM_read EEPROM_SELECTED_ADDR w in
    if Z.of_nat NB_ANTENNES <=? val then -1
    else i8 val.

(** Lines 150-162: what a touch on button [idx] does. *)
Definition selectionner (idx : nat) : world -> world :=
  exclusivite idx ;>
  setBoutonOn idx ;>
  set_antenneSelectionnee (i8 (Z.of_nat idx)) ;>
  sauvegarderSelection idx ;>
  digitalWrite (relayPin idx) HIGH ;>
  (fun w => set_relayOffTime (<[idx := u32 (millis w + 2000)]>) w).

(** Lines 142-164: the page and component filter in front of the selection.
    [FIRST_BTN_ID + NB_ANTENNES] is computed in [int], so it does not wrap. *)
Definition traiterEvenement (page compId : Z) (w : world) : world :=
  if page =? 0 then
    if (FIRST_BTN_ID <=? compId) && (compId <? FIRST_BTN_ID + Z.of_nat NB_ANTENNES) then
      selectionner (Z.to_nat (u8 (compId - FIRST_BTN_ID))) w
    else w
  else w.

(** Lines 134-137. *)
Definition trameValide (b : list Z) : bool :=
  (nth 0 b 0 =? 0x65) && (nth 4 b 0 =? 0xFF) &&
  (nth 5 b 0 =? 0xFF) && (nth 6 b 0 =? 0xFF).

(** Lines 125-168: the body of the [while] loop, for the byte [c] just read. *)
Definition recevoirOctet (c : Z) (w : world) : world :=
  if (pos w =? 0) && negb (c =? 0x65) then w
  else
    let w1 := (set_buffer (<[Z.to_nat (pos w) := c]>) ;>
               set_pos (u8 (pos w + 1))) w in
    if 7 <=? pos w1 then
      let w2 :=
        if trameValide (buffer w1)
        then traiterEvenement (nth 1 (buffer w1) 0) (nth 2 (buffer w1) 0) w1
        else w1 in
      set_pos 0 w2
    else w1.

(** Lines 124-169: [while (Serial3.available())] pops the queue until it is
    empty; nothing in the body refills it. *)
Fixpoint recevoirBoucle (queue : list Z) (w : world) : world :=
  match queue with
  | [] => set_rx [] w
  | c :: rest => recevoirBoucle rest (recevoirOctet (u8 c) (set_rx rest w))
  end.

(** Lines 120-170. *)
Definition recevoirEvenementsNextion (w : world) : world :=
  recevoirBoucle (rx w) w.

(** Lines 178-179: one iteration of the loop of [setup]. *)
Definition setup_body (i : nat) : world -> world :=
  pinMode (relayPin i) OUTPUT ;> digitalWrite (relayPin i) LOW.

(** Lines 175-195.  [Serial3.begin] changes nothing that is modelled. *)
Definition setup : world -> world :=
  for_loop NB_ANTENNES setup_body ;>
  delay 500 ;>
  (fun w => set_antenneSelectionnee (lireSelectionEEPROM w) w) ;>
  (fun w =>
     if (0 <=? antenneSelectionnee w) &&
        (antenneSelectionnee w <? i8 (Z.of_nat NB_ANTENNES)) then
       (exclusivite (Z.to_nat (u8 (antenneSelectionnee w))) ;>
        setBoutonOn (Z.to_nat (u8 (antenneSelectionnee w)))) w
     else w).

(** Lines 200-203. *)
Definition loop : world -> world :=
  recevoirEvenementsNextion ;> gererTemporisations.

(** ** The display's side of Serial3

    The Nextion executes an instruction when it has received the three
    terminator bytes [0xFF 0xFF 0xFF].  The page of the sketch has the eight
    dual-state buttons [bt0] .. [bt7]; the only instruction the sketch sends
    is [bt<i>.val=<0|1>], which sets the state of button [i].  Anything else
    is an invalid instruction for this page and changes no button. *)

Record nextion : Type := Nextion {
  pending : list Z;        (* instruction bytes received so far *)
  ffs : nat;               (* how many 0xFF in a row end the input so far *)
  bt_val : gmap nat bool   (* [.val] of each button that was assigned *)
}.

Fixpoint octets_eqb (a b : list Z) : bool :=
  match a, b with
  | [], [] => true
  | x :: a', y :: b' => (x =? y) && octets_eqb a' b'
  | _, _ => false
  end.

Definition nextion_exec (l : list Z) (v : gmap nat bool) : gmap nat bool :=
  match l with
  | [b; t; d; p; v1; a; l1; e; x] =>
      if octets_eqb [b; t] (octets "bt") &&
         octets_eqb [p; v1; a; l1; e] (octets ".val=") &&
         (48 <=? d) && (d <? 56) && ((x =? 48) || (x =? 49))
      then <[Z.to_nat (d - 48) := (x =? 49)]> v
      else v
  | _ => v
  end.

Definition nextion_rx (n : nextion) (c : Z) : nextion :=
  if c =? 0xFF then
    if (ffs n =? 2)%nat
    then Nextion [] 0 (nextion_exec (pending n) (bt_val n))
    else Nextion (pending n) (S (ffs n)) (bt_val n)
  else Nextion (pending n ++ replicate (ffs n) 0xFF ++ [c]) 0 (bt_val n).

Definition nextion_boot : nextion := Nextion [] 0 ∅.

(** The display after it has received everything the sketch wrote. *)
Definition display (w : world) : nextion := foldl nextion_rx nextion_boot (tx w).

(** State of button [bt<i>] on the display: [None] until the sketch has
    assigned it. *)
Definition indicator (w : world) (i : nat) : option bool := bt_val (display w) !! i.

(** The display is between two instructions. *)
Definition display_idle (w : world) : Prop :=
  pending (display w) = [] /\ ffs (display w) = 0%nat.

(** ** Observations on the relay bank *)

Definition relay_on (w : world) (i : nat) : bool :=
  bool_decide (pins w !! relayPin i = Some HIGH).

Definition energized (w : world) : list nat :=
  filter (fun i => relay_on w i = true) (seq 0 NB_ANTENNES).

Definition deadline (w : world) (i : nat) : Z := nth i (relayOffTime w) 0.

(** ** The environment of the sketch *)

(** The globals and statics as their initialisers leave them; no pin has been
    driven; the EEPROM holds whatever it held before the reset. *)
Definition power_on (e : Z -> Z) : world :=
  World ∅ ∅ (replicate NB_ANTENNES 0) (-1) 0 (replicate 7 0) e 0 [] [].

(** What can happen between and around calls: time passes, bytes arrive from
    the display, and the main loop calls its two functions. *)
Inductive stimulus : Type :=
  | Tick (ms : Z)
  | Arrive (bytes : list Z)
  | Receive
  | Scan.

Definition react (w : world) (s : stimulus) : world :=
  match s with
  | Tick ms => set_horloge (u32 (horloge w + ms)) w
  | Arrive bytes => set_rx (rx w ++ bytes) w
  | Receive => recevoirEvenementsNextion w
  | Scan => gererTemporisations w
  end.

Definition run (w : world) (trace : list stimulus) : world := foldl react w trace.

(** The touch event (page, component id) that the decoder recognises when the
    byte [c] completes a valid window (lines 133-140), if it does. *)
Definition touchEvent (c : Z) (w : world) : option (Z * Z) :=
  if (pos w =? 0) && negb (c =? 0x65) then None
  else
    let b := <[Z.to_nat (pos w) := c]> (buffer w) in
    if (7 <=? u8 (pos w + 1)) && trameValide b
    then Some (nth 1 b 0, nth 2 b 0) else None.

(** The touch events recognised while the bytes [l] are consumed. *)
Fixpoint touchEvents (l : list Z) (w : world) : list (Z * Z) :=
  match l with
  | [] => []
  | c :: rest =>
      option_list (touchEvent (u8 c) w) ++ touchEvents rest (recevoirOctet (u8 c) w)
  end.

(** The invariants of the fixed-size arrays and of the write position. *)
Record wf (w : world) : Prop := {
  wf_relayOffTime : length (relayOffTime w) = NB_ANTENNES;
  wf_buffer : length (buffer w) = 7%nat;
  wf_pos : 0 <= pos w < 7
}.

(* ================================================================== *)
(** * Vocabulary of the statements *)

(** The bytes of the instruction [bt<i>.val=<v>] with its terminator. *)
Definition cmd (i : nat) (v : Z) : list Z :=
  octets "bt" ++ decimal (Z.of_nat i) ++ octets ".val=" ++ [48 + v] ++ [0xFF; 0xFF; 0xFF].

(** The loop of [exclusivite] run over the indices [l]. *)
Definition exclusivite_from (actif : nat) (l : list nat) (w : world) : world :=
  foldl (fun acc i => exclusivite_body actif i acc) w l.

(** The fields the loop never writes. *)
Definition same_inputs (w w' : world) : Prop :=
  modes w' = modes w /\ antenneSelectionnee w' = antenneSelectionnee w /\
  pos w' = pos w /\ buffer w' = buffer w /\ eeprom w' = eeprom w /\
  horloge w' = horloge w /\ rx w' = rx w.

(** Commands sent by the loop. *)
Definition off_cmds (actif : nat) (l : list nat) : list Z :=
  flat_map (fun i => if (i =? actif)%nat then [] else cmd i 0) l.

(** The loop of [gererTemporisations] run over the indices [l]. *)
Definition gerer_from (now : Z) (l : list nat) (w : world) : world :=
  foldl (fun acc i => gererTemporisations_body now i acc) w l.

(** The guard of line 80. *)
Definition expired (now : Z) (w : world) (i : nat) : bool :=
  negb (deadline w i =? 0) && (deadline w i <=? now).

(** Line 131: [buffer[pos++] = c]. *)
Definition buffered (c : Z) (w : world) : world :=
  set_pos (u8 (pos w + 1)) (set_buffer (<[Z.to_nat (pos w) := c]>) w).

(** No two relays are HIGH together. *)
Definition exclusive (w : world) : Prop :=
  forall i j, (i < NB_ANTENNES)%nat -> (j < NB_ANTENNES)%nat ->
              relay_on w i = true -> relay_on w j = true -> i = j.

(** The first loop of [setup] run over the indices [l]. *)
Definition setup_from (l : list nat) (w : world) : world :=
  foldl (fun acc i => setup_body i acc) w l.

(** The state in which [setup] decides whether to replay a selection. *)
Definition setup_loaded (w : world) : world :=
  set_antenneSelectionnee (lireSelectionEEPROM w)
    (delay 500 (setup_from (seq 0 NB_ANTENNES) w)).

(** What a [uint8_t] holds. *)
Definition is_byte (x : Z) : Prop := 0 <= x < 256.

(** [w] with the decoder's window and the receive queue replaced. *)
Definition decoder_at (p : Z) (b q : list Z) (w : world) : world :=
  World (pins w) (modes w) (relayOffTime w) (antenneSelectionnee w)
        p b (eeprom w) (horloge w) q (tx w).

(** The touch frame of the Nextion (line 116). *)
Definition trame (page compId state : Z) : list Z :=
  [0x65; page; compId; state; 0xFF; 0xFF; 0xFF].

(** The events the filter lets through: page 0 and a component id of one of
    the eight buttons. *)
Definition accepted (page compId : Z) : Prop :=
  page = 0 /\ FIRST_BTN_ID <= compId < FIRST_BTN_ID + Z.of_nat NB_ANTENNES.

(** The state in which the filter sees the event of a frame read from write
    position 0: the frame is in the window, the queue is empty. *)
Definition framed (page compId state : Z) (w : world) : world :=
  set_pos 7 (set_buffer (fun _ => trame page compId state) (set_rx [] w)).


(** A sketch that has just started on an erased EEPROM. *)
Definition w_boot : world := setup (power_on (fun _ => 0xFF)).

(** A pulse in progress, as the scan sees it: relay [k] is HIGH and its
    deadline is [d]. *)
Record pulsing (k : nat) (d : Z) (w : world) : Prop := {
  pulsing_on : pins w !! relayPin k = Some HIGH;
  pulsing_deadline : relayOffTime w !! k = Some d;
  pulsing_length : length (relayOffTime w) = NB_ANTENNES
}.

(** Stimuli that hand no touch frame to the sketch: time passes, bytes may
    queue up, the scan runs. *)
Definition no_touch (s : stimulus) : Prop :=
  match s with Receive => False | _ => True end.

(** The scan called at each of the given clock values in turn. *)
Definition scans (times : list Z) (w : world) : world :=
  foldl (fun acc t => gererTemporisations (set_horloge t acc)) w times.

(** The states a selection goes through once the loop of [exclusivite] has
    left [s0]: the state after each of the statements of lines 154-162. *)
Definition selection_tail (k : nat) (s0 : world) : list world :=
  let s1 := setBoutonOn k s0 in
  let s2 := set_antenneSelectionnee (i8 (Z.of_nat k)) s1 in
  let s3 := sauvegarderSelection k s2 in
  let s4 := digitalWrite (relayPin k) HIGH s3 in
  let s5 := set_relayOffTime (<[k := u32 (millis s4 + 2000)]>) s4 in
  [s1; s2; s3; s4; s5].

(** All the states a selection goes through: the start and the state after
    each iteration of the loop of [exclusivite], then the tail. *)
Definition selection_points (k : nat) (w : world) : list world :=
  ((fun n => for_loop n (exclusivite_body k) w) <$> seq 0 (S NB_ANTENNES)) ++
  selection_tail k (exclusivite k w).

(** The iterations of the receive loop over the bytes [l] (lines 125-168),
    leaving the queue aside. *)
Definition feed (l : list Z) (w : world) : world :=
  foldl (fun acc c => recevoirOctet (u8 c) acc) w l.

(** The byte stream of the touch frames of the buttons [ks], each with its
    state byte. *)
Definition frames (ks : list (nat * Z)) : list Z :=
  flat_map (fun ks => trame 0 (FIRST_BTN_ID + Z.of_nat ks.1) ks.2) ks.

(** A button of the page with a state byte. *)
Definition button (ks : nat * Z) : Prop :=
  (ks.1 < NB_ANTENNES)%nat /\ is_byte ks.2.

(** What holds between the parts of the state once [setup] has run: the
    arrays and the write position are in bounds, the display is between two
    instructions, the selection in RAM is the one the EEPROM yields, a relay
    that is on is the relay of the selected antenna, a pending deadline
    belongs to a relay that is on, and the buttons show the selection (or
    nothing was ever sent and nothing is selected). *)
Record coherent (w : world) : Prop := {
  coh_wf : wf w;
  coh_idle : display_idle w;
  coh_stored : antenneSelectionnee w = lireSelectionEEPROM w;
  coh_relay : forall i, (i < NB_ANTENNES)%nat ->
                relay_on w i = true -> antenneSelectionnee w = Z.of_nat i;
  coh_deadline : forall i, (i < NB_ANTENNES)%nat ->
                   deadline w i <> 0 -> relay_on w i = true;
  coh_display :
    (exists k, (k < NB_ANTENNES)%nat /\ antenneSelectionnee w = Z.of_nat k /\
               forall i, (i < NB_ANTENNES)%nat ->
                 indicator w i = Some (bool_decide (i = k))) \/
    (~ 0 <= antenneSelectionnee w < Z.of_nat NB_ANTENNES /\ tx w = [])
}.

(** The state reached from power-on, with the EEPROM holding [e], once
    [setup] has run and the stimuli of [trace] have happened. *)
Definition reached (e : Z -> Z) (trace : list stimulus) : world :=
  run (setup (power_on e)) trace.

(** The state in which [setup] starts: the globals and statics as their
    initialisers leave them, the EEPROM as it was before the reset, and the
    pin latches and directions whatever they are. *)
Definition started (p : gmap Z bool) (m : gmap Z pin_mode) (e : Z -> Z) : world :=
  World p m (replicate NB_ANTENNES 0) (-1) 0 (replicate 7 0) e 0 [] [].

(** The states the replay of lines 190-192 goes through from [s]: the state
    after each iteration of the loop of [exclusivite], then the state after
    [setBoutonOn]. *)
Definition replay_points (k : nat) (s : world) : list world :=
  ((fun n => for_loop n (exclusivite_body k) s) <$> seq 0 (S NB_ANTENNES)) ++
  [setBoutonOn k (exclusivite k s)].

(** The states [setup] goes through, in order: after its first loop (lines
    177-180), after the delay, after the load (line 186), and, when the
    loaded index is in range, through the replay. *)
Definition setup_points (w : world) : list world :=
  let s0 := for_loop NB_ANTENNES setup_body w in
  let s1 := delay 500 s0 in
  let s2 := set_antenneSelectionnee (lireSelectionEEPROM s1) s1 in
  [s0; s1; s2] ++
  (if (0 <=? antenneSelectionnee s2) &&
      (antenneSelectionnee s2 <? i8 (Z.of_nat NB_ANTENNES))
   then replay_points (Z.to_nat (u8 (antenneSelectionnee s2))) s2
   else []).

(* ================================================================== *)
(** * Properties *)

Ltac unfold_setters :=
  unfold digitalWrite, pinMode, millis, delay, set_pins, set_modes,
    set_relayOffTime, set_antenneSelectionnee, set_pos, set_buffer,
    set_eeprom, set_horloge, set_rx, set_tx in *;
  simpl in *.

(** Well-formedness of a closed state. *)
Ltac wf_by_computation :=
  split;
  [ vm_compute; reflexivity
  | vm_compute; reflexivity
  | vm_compute; split; [discriminate | reflexivity] ].

(** ** Indices and pins *)

Ltac antenna_cases i H :=
  unfold NB_ANTENNES in H;
  destruct i as [|[|[|[|[|[|[|[|i]]]]]]]]; [ .. | exfalso; lia ].

Lemma relayPin_inj (i j : nat) :
  (i < NB_ANTENNES)%nat -> (j < NB_ANTENNES)%nat ->
  relayPin i = relayPin j -> i = j.
Proof.
  intros Hi Hj.
  antenna_cases i Hi; antenna_cases j Hj; cbv; congruence.
Qed.

Lemma i8_small (k : nat) : (k < NB_ANTENNES)%nat -> i8 (Z.of_nat k) = Z.of_nat k.
Proof. intros H. antenna_cases k H; reflexivity. Qed.

Lemma for_loop_unfold n body w :
  for_loop n body w = foldl (fun acc i => body i acc) w (seq 0 n).
Proof. reflexivity. Qed.

(** ** What the serial commands append *)

Lemma setBoutonOn_tx i w : tx (setBoutonOn i w) = tx w ++ cmd i 1.
Proof. unfold setBoutonOn, cmd. cbn. rewrite <- !app_assoc. reflexivity. Qed.

Lemma setBoutonOff_eq i w : setBoutonOff i w = set_tx (fun t => t ++ cmd i 0) w.
Proof.
  unfold setBoutonOff, cmd, Serial3_print, Serial3_print_u8, Serial3_write, set_tx.
  cbn. rewrite <- !app_assoc. reflexivity.
Qed.

Lemma setBoutonOn_eq i w : setBoutonOn i w = set_tx (fun t => t ++ cmd i 1) w.
Proof.
  unfold setBoutonOn, cmd, Serial3_print, Serial3_print_u8, Serial3_write, set_tx.
  cbn. rewrite <- !app_assoc. reflexivity.
Qed.

(** ** The durable store *)

Lemma EEPROM_update_eq a v w :
  exists e', EEPROM_update a v w = set_eeprom (fun _ => e') w /\
             forall b, e' b = if decide (b = a) then v else eeprom w b.
Proof.
  unfold EEPROM_update, EEPROM_read.
  destruct (eeprom w a =? v) eqn:E.
  - exists (eeprom w). split; [destruct w; reflexivity|].
    intros b. case_decide; [subst; lia | reflexivity].
  - exists (<[a := v]> (eeprom w)). split; [reflexivity|].
    intros b. case_decide.
    + subst. apply fn_lookup_insert.
    + apply fn_lookup_insert_ne. congruence.
Qed.

Lemma sauvegarderSelection_eq idx w :
  exists e', sauvegarderSelection idx w = set_eeprom (fun _ => e') w /\
             forall b, e' b = if decide (b = EEPROM_SELECTED_ADDR) then Z.of_nat idx
                              else if decide (b = EEPROM_MAGIC_ADDR) then EEPROM_MAGIC_VALUE
                              else eeprom w b.
Proof.
  unfold sauvegarderSelection.
  destruct (EEPROM_update_eq EEPROM_MAGIC_ADDR EEPROM_MAGIC_VALUE w) as (e1 & -> & H1).
  destruct (EEPROM_update_eq EEPROM_SELECTED_ADDR (Z.of_nat idx)
              (set_eeprom (fun _ => e1) w)) as (e2 & -> & H2).
  exists e2. split; [reflexivity|].
  intros b. rewrite H2. simpl. rewrite H1. reflexivity.
Qed.

(** ** The loop of [exclusivite], over any list of indices *)

Lemma exclusivite_from_snoc actif l i w :
  exclusivite_from actif (l ++ [i]) w =
  exclusivite_body actif i (exclusivite_from actif l w).
Proof. unfold exclusivite_from. rewrite foldl_app. reflexivity. Qed.

Lemma exclusivite_body_same actif w : exclusivite_body actif actif w = w.
Proof. unfold exclusivite_body. rewrite Nat.eqb_refl. reflexivity. Qed.

Lemma exclusivite_body_other actif i w :
  i <> actif ->
  exclusivite_body actif i w =
  set_tx (fun t => t ++ cmd i 0)
    (set_relayOffTime (<[i := 0]>) (set_pins (<[relayPin i := LOW]>) w)).
Proof.
  intros H. unfold exclusivite_body.
  apply Nat.eqb_neq in H. rewrite H. simpl.
  rewrite setBoutonOff_eq. reflexivity.
Qed.

Lemma exclusivite_from_inputs actif l w : same_inputs w (exclusivite_from actif l w).
Proof.
  induction l as [|i l IH] using rev_ind.
  - repeat split.
  - rewrite exclusivite_from_snoc.
    destruct (decide (i = actif)) as [->|Hne].
    + rewrite exclusivite_body_same. exact IH.
    + rewrite exclusivite_body_other by assumption. exact IH.
Qed.

Lemma exclusivite_from_tx actif l w :
  tx (exclusivite_from actif l w) = tx w ++ off_cmds actif l.
Proof.
  induction l as [|i l IH] using rev_ind.
  - simpl. rewrite app_nil_r. reflexivity.
  - rewrite exclusivite_from_snoc. unfold off_cmds.
    rewrite flat_map_app. simpl. rewrite app_nil_r.
    destruct (decide (i = actif)) as [->|Hne].
    + rewrite exclusivite_body_same, Nat.eqb_refl, app_nil_r. exact IH.
    + rewrite exclusivite_body_other by assumption.
      apply Nat.eqb_neq in Hne. rewrite Hne. simpl.
      rewrite IH, <- app_assoc. reflexivity.
Qed.

(** The loop only ever writes LOW, and only to the pins of the others. *)
Lemma exclusivite_from_pins actif l w p :
  pins (exclusivite_from actif l w) !! p = pins w !! p \/
  (pins (exclusivite_from actif l w) !! p = Some LOW /\
   exists i, i ∈ l /\ i <> actif /\ relayPin i = p).
Proof.
  induction l as [|i l IH] using rev_ind.
  - left. reflexivity.
  - rewrite exclusivite_from_snoc.
    destruct (decide (i = actif)) as [->|Hne].
    + rewrite exclusivite_body_same.
      destruct IH as [IH|(IH & j & Hj & Hja & Hp)]; [left; exact IH|].
      right. split; [exact IH|]. exists j. rewrite elem_of_app. tauto.
    + rewrite exclusivite_body_other by assumption. simpl.
      destruct (decide (relayPin i = p)) as [<-|Hp].
      * right. rewrite lookup_insert_eq. split; [reflexivity|].
        exists i. rewrite elem_of_app, list_elem_of_singleton. tauto.
      * rewrite lookup_insert_ne by assumption.
        destruct IH as [IH|(IH & j & Hj & Hja & Hq)]; [left; exact IH|].
        right. split; [exact IH|]. exists j. rewrite elem_of_app. tauto.
Qed.

Lemma exclusivite_from_pins_off actif l w i :
  i ∈ l -> i <> actif ->
  pins (exclusivite_from actif l w) !! relayPin i = Some LOW.
Proof.
  induction l as [|j l IH] using rev_ind; intros Hin Hne.
  - inversion Hin.
  - rewrite exclusivite_from_snoc.
    destruct (decide (j = actif)) as [->|Hj].
    + rewrite exclusivite_body_same. apply IH; [|assumption].
      apply elem_of_app in Hin as [Hin|Hin]; [assumption|].
      apply list_elem_of_singleton in Hin. congruence.
    + rewrite exclusivite_body_other by assumption. simpl.
      destruct (decide (relayPin j = relayPin i)) as [->|Hp].
      * apply lookup_insert_eq.
      * rewrite lookup_insert_ne by assumption.
        apply IH; [|assumption].
        apply elem_of_app in Hin as [Hin|Hin]; [assumption|].
        apply list_elem_of_singleton in Hin. congruence.
Qed.

(** The pin of the active antenna is out of the loop's reach. *)
Lemma exclusivite_from_pins_actif actif l w :
  (actif < NB_ANTENNES)%nat -> (forall i, i ∈ l -> (i < NB_ANTENNES)%nat) ->
  pins (exclusivite_from actif l w) !! relayPin actif = pins w !! relayPin actif.
Proof.
  intros Ha Hl.
  destruct (exclusivite_from_pins actif l w (relayPin actif))
    as [H|(_ & i & Hi & Hne & Hp)]; [exact H|].
  exfalso. apply Hne. apply relayPin_inj; auto.
Qed.

Lemma exclusivite_from_length actif l w :
  length (relayOffTime (exclusivite_from actif l w)) = length (relayOffTime w).
Proof.
  induction l as [|i l IH] using rev_ind; [reflexivity|].
  rewrite exclusivite_from_snoc.
  destruct (decide (i = actif)) as [->|Hne].
  - rewrite exclusivite_body_same. exact IH.
  - rewrite exclusivite_body_other by assumption. simpl.
    rewrite length_insert. exact IH.
Qed.

Lemma exclusivite_from_deadline_off actif l w i :
  i ∈ l -> i <> actif -> (i < length (relayOffTime w))%nat ->
  relayOffTime (exclusivite_from actif l w) !! i = Some 0.
Proof.
  induction l as [|j l IH] using rev_ind; intros Hin Hne Hlen.
  - inversion Hin.
  - rewrite exclusivite_from_snoc.
    destruct (decide (j = actif)) as [->|Hj].
    + rewrite exclusivite_body_same. apply IH; [|assumption..].
      apply elem_of_app in Hin as [Hin|Hin]; [assumption|].
      apply list_elem_of_singleton in Hin. congruence.
    + rewrite exclusivite_body_other by assumption. simpl.
      destruct (decide (j = i)) as [->|Hji].
      * apply list_lookup_insert_eq. rewrite exclusivite_from_length. assumption.
      * rewrite list_lookup_insert_ne by assumption.
        apply IH; [|assumption..].
        apply elem_of_app in Hin as [Hin|Hin]; [assumption|].
        apply list_elem_of_singleton in Hin. congruence.
Qed.

Lemma exclusivite_from_deadline_actif actif l w :
  relayOffTime (exclusivite_from actif l w) !! actif = relayOffTime w !! actif.
Proof.
  induction l as [|j l IH] using rev_ind; [reflexivity|].
  rewrite exclusivite_from_snoc.
  destruct (decide (j = actif)) as [->|Hj].
  - rewrite exclusivite_body_same. exact IH.
  - rewrite exclusivite_body_other by assumption. simpl.
    rewrite list_lookup_insert_ne by assumption. exact IH.
Qed.

(** ** The display *)

Lemma display_app w w' added :
  tx w' = tx w ++ added -> display w' = foldl nextion_rx (display w) added.
Proof. intros H. unfold display. rewrite H, foldl_app. reflexivity. Qed.

Lemma nextion_cmd n i v :
  pending n = [] -> ffs n = 0%nat -> (i < NB_ANTENNES)%nat -> v = 0 \/ v = 1 ->
  foldl nextion_rx n (cmd i v) = Nextion [] 0 (<[i := (v =? 1)]> (bt_val n)).
Proof.
  destruct n as [p f m]. simpl. intros -> -> Hi Hv.
  antenna_cases i Hi; destruct Hv as [-> | ->]; reflexivity.
Qed.

Lemma off_cmds_snoc actif l i :
  off_cmds actif (l ++ [i]) =
  off_cmds actif l ++ (if (i =? actif)%nat then [] else cmd i 0).
Proof. unfold off_cmds. rewrite flat_map_app. simpl. rewrite app_nil_r. reflexivity. Qed.

Lemma nextion_off_cmds n actif l :
  pending n = [] -> ffs n = 0%nat -> (forall i, i ∈ l -> (i < NB_ANTENNES)%nat) ->
  let n' := foldl nextion_rx n (off_cmds actif l) in
  pending n' = [] /\ ffs n' = 0%nat /\
  (forall j, j ∈ l -> j <> actif -> bt_val n' !! j = Some false) /\
  (forall j, j ∉ l \/ j = actif -> bt_val n' !! j = bt_val n !! j).
Proof.
  intros Hp Hf. induction l as [|i l IH] using rev_ind; intros Hl; simpl.
  - repeat split; auto. intros j Hj. inversion Hj.
  - destruct IH as (IHp & IHf & IHoff & IHsame).
    { intros j Hj. apply Hl. apply elem_of_app. auto. }
    rewrite off_cmds_snoc, foldl_app.
    destruct (decide (i = actif)) as [->|Hne].
    + rewrite Nat.eqb_refl. simpl. repeat split; auto.
      * intros j Hj Hja. apply IHoff; [|assumption].
        apply elem_of_app in Hj as [Hj|Hj]; [assumption|].
        apply list_elem_of_singleton in Hj. congruence.
      * intros j Hj. apply IHsame.
        destruct Hj as [Hj|Hj]; [left|right; assumption].
        intros Hin. apply Hj. apply elem_of_app. auto.
    + pose proof Hne as Hb. apply Nat.eqb_neq in Hb. rewrite Hb.
      rewrite nextion_cmd; auto.
      2:{ apply Hl. apply elem_of_app. right. apply list_elem_of_singleton. reflexivity. }
      simpl. repeat split.
      * intros j Hj Hja. destruct (decide (i = j)) as [->|Hij].
        -- apply lookup_insert_eq.
        -- rewrite lookup_insert_ne by assumption. apply IHoff; [|assumption].
           apply elem_of_app in Hj as [Hj|Hj]; [assumption|].
           apply list_elem_of_singleton in Hj. congruence.
      * intros j Hj. rewrite lookup_insert_ne.
        -- apply IHsame. destruct Hj as [Hj|Hj]; [left|right; assumption].
           intros Hin. apply Hj. apply elem_of_app. auto.
        -- intros ->. destruct Hj as [Hj|Hj]; [|congruence].
           apply Hj. apply elem_of_app. right. apply list_elem_of_singleton. reflexivity.
Qed.

(** What the display shows once the loop has run. *)
Lemma exclusivite_from_display actif l w :
  display_idle w -> (forall i, i ∈ l -> (i < NB_ANTENNES)%nat) ->
  display_idle (exclusivite_from actif l w) /\
  (forall j, j ∈ l -> j <> actif ->
             indicator (exclusivite_from actif l w) j = Some false) /\
  (forall j, j ∉ l \/ j = actif ->
             indicator (exclusivite_from actif l w) j = indicator w j).
Proof.
  intros [Hp Hf] Hl. unfold display_idle, indicator.
  rewrite (display_app w _ _ (exclusivite_from_tx actif l w)).
  destruct (nextion_off_cmds (display w) actif l Hp Hf Hl) as (H1 & H2 & H3 & H4).
  auto.
Qed.

(** ** A selection *)

Lemma elem_of_antennas i : i ∈ seq 0 NB_ANTENNES <-> (i < NB_ANTENNES)%nat.
Proof. rewrite elem_of_seq. lia. Qed.

Lemma selectionner_eq k w :
  exists e',
    selectionner k w =
    World (<[relayPin k := HIGH]> (pins (exclusivite k w))) (modes w)
          (<[k := u32 (horloge w + 2000)]> (relayOffTime (exclusivite k w)))
          (i8 (Z.of_nat k)) (pos w) (buffer w) e' (horloge w) (rx w)
          (tx (exclusivite k w) ++ cmd k 1) /\
    forall b, e' b = if decide (b = EEPROM_SELECTED_ADDR) then Z.of_nat k
                     else if decide (b = EEPROM_MAGIC_ADDR) then EEPROM_MAGIC_VALUE
                     else eeprom w b.
Proof.
  unfold selectionner.
  destruct (exclusivite_from_inputs k (seq 0 NB_ANTENNES) w)
    as (Hm & Ha & Hpos & Hb & He & Hh & Hr).
  change (exclusivite_from k (seq 0 NB_ANTENNES) w) with (exclusivite k w) in *.
  generalize dependent (exclusivite k w). intros x Hm Ha Hpos Hb He Hh Hr.
  rewrite setBoutonOn_eq.
  destruct (sauvegarderSelection_eq k
              (set_antenneSelectionnee (i8 (Z.of_nat k))
                 (set_tx (fun t => t ++ cmd k 1) x)))
    as (e' & -> & He').
  exists e'. split.
  - unfold_setters. rewrite Hm, Hpos, Hb, Hh, Hr. reflexivity.
  - intros b. rewrite He'. simpl. rewrite He. reflexivity.
Qed.

Section Selection.
Variables (k : nat) (w : world).
Hypothesis Hk : (k < NB_ANTENNES)%nat.

Lemma selectionner_relay_on : pins (selectionner k w) !! relayPin k = Some HIGH.
Proof.
  destruct (selectionner_eq k w) as (e' & -> & _). simpl.
  apply lookup_insert_eq.
Qed.

Lemma selectionner_relay_off i :
  (i < NB_ANTENNES)%nat -> i <> k ->
  pins (selectionner k w) !! relayPin i = Some LOW.
Proof.
  intros Hi Hne.
  destruct (selectionner_eq k w) as (e' & -> & _). simpl.
  rewrite lookup_insert_ne.
  - apply exclusivite_from_pins_off; [apply elem_of_antennas|]; assumption.
  - intros E. apply Hne. symmetry. apply relayPin_inj; assumption.
Qed.

Lemma selectionner_length :
  length (relayOffTime (selectionner k w)) = length (relayOffTime w).
Proof.
  destruct (selectionner_eq k w) as (e' & -> & _). simpl.
  rewrite length_insert. apply exclusivite_from_length.
Qed.

Lemma selectionner_deadline :
  length (relayOffTime w) = NB_ANTENNES ->
  relayOffTime (selectionner k w) !! k = Some (u32 (horloge w + 2000)).
Proof.
  intros Hlen.
  destruct (selectionner_eq k w) as (e' & -> & _). simpl.
  apply list_lookup_insert_eq.
  unfold exclusivite, for_loop. fold (exclusivite_from k (seq 0 NB_ANTENNES) w).
  rewrite exclusivite_from_length. lia.
Qed.

Lemma selectionner_deadline_off i :
  length (relayOffTime w) = NB_ANTENNES -> (i < NB_ANTENNES)%nat -> i <> k ->
  relayOffTime (selectionner k w) !! i = Some 0.
Proof.
  intros Hlen Hi Hne.
  destruct (selectionner_eq k w) as (e' & -> & _). simpl.
  rewrite list_lookup_insert_ne by congruence.
  apply exclusivite_from_deadline_off; [apply elem_of_antennas| |lia]; assumption.
Qed.

Lemma selectionner_tx :
  tx (selectionner k w) = tx w ++ off_cmds k (seq 0 NB_ANTENNES) ++ cmd k 1.
Proof.
  destruct (selectionner_eq k w) as (e' & -> & _). simpl.
  unfold exclusivite, for_loop. fold (exclusivite_from k (seq 0 NB_ANTENNES) w).
  rewrite exclusivite_from_tx, <- app_assoc. reflexivity.
Qed.

Lemma selectionner_display :
  display_idle w ->
  display_idle (selectionner k w) /\
  indicator (selectionner k w) k = Some true /\
  (forall i, (i < NB_ANTENNES)%nat -> i <> k ->
             indicator (selectionner k w) i = Some false).
Proof.
  intros Hidle.
  destruct (exclusivite_from_display k (seq 0 NB_ANTENNES) w Hidle)
    as ([Hp Hf] & Hoff & _).
  { intros i. apply elem_of_antennas. }
  assert (Htx : tx (selectionner k w) =
                tx (exclusivite_from k (seq 0 NB_ANTENNES) w) ++ cmd k 1).
  { destruct (selectionner_eq k w) as (e' & -> & _). reflexivity. }
  unfold display_idle, indicator.
  rewrite (display_app _ _ _ Htx), nextion_cmd by auto.
  simpl. repeat split.
  - apply lookup_insert_eq.
  - intros i Hi Hne. rewrite lookup_insert_ne by congruence.
    apply Hoff; [apply elem_of_antennas|]; assumption.
Qed.

Lemma selectionner_antenne :
  antenneSelectionnee (selectionner k w) = Z.of_nat k.
Proof.
  destruct (selectionner_eq k w) as (e' & -> & _). simpl.
  apply i8_small. exact Hk.
Qed.

Lemma selectionner_eeprom :
  eeprom (selectionner k w) EEPROM_MAGIC_ADDR = EEPROM_MAGIC_VALUE /\
  eeprom (selectionner k w) EEPROM_SELECTED_ADDR = Z.of_nat k /\
  forall a, a <> EEPROM_MAGIC_ADDR -> a <> EEPROM_SELECTED_ADDR ->
            eeprom (selectionner k w) a = eeprom w a.
Proof.
  destruct (selectionner_eq k w) as (e' & -> & He). simpl.
  repeat split.
  - rewrite He. reflexivity.
  - rewrite He. reflexivity.
  - intros a H0 H1. rewrite He. repeat case_decide; congruence.
Qed.

Lemma selectionner_decoder :
  pos (selectionner k w) = pos w /\ buffer (selectionner k w) = buffer w /\
  rx (selectionner k w) = rx w /\ horloge (selectionner k w) = horloge w /\
  modes (selectionner k w) = modes w.
Proof. destruct (selectionner_eq k w) as (e' & -> & _). simpl. auto. Qed.
End Selection.

(** ** The loop of [gererTemporisations], over any list of indices *)

Lemma gerer_from_snoc now l i w :
  gerer_from now (l ++ [i]) w = gererTemporisations_body now i (gerer_from now l w).
Proof. unfold gerer_from. rewrite foldl_app. reflexivity. Qed.

Lemma gerer_body_eq now i w :
  gererTemporisations_body now i w =
  if expired now w i
  then set_relayOffTime (<[i := 0]>) (set_pins (<[relayPin i := LOW]>) w)
  else w.
Proof. reflexivity. Qed.

Lemma deadline_lookup w w' i :
  relayOffTime w' !! i = relayOffTime w !! i -> deadline w' i = deadline w i.
Proof. unfold deadline. rewrite !nth_lookup. intros ->. reflexivity. Qed.

Lemma gerer_from_inputs now l w :
  same_inputs w (gerer_from now l w) /\ tx (gerer_from now l w) = tx w.
Proof.
  induction l as [|i l IH] using rev_ind.
  - repeat split.
  - rewrite gerer_from_snoc, gerer_body_eq.
    destruct (expired now (gerer_from now l w) i); exact IH.
Qed.

Lemma gerer_from_length now l w :
  length (relayOffTime (gerer_from now l w)) = length (relayOffTime w).
Proof.
  induction l as [|i l IH] using rev_ind; [reflexivity|].
  rewrite gerer_from_snoc, gerer_body_eq.
  destruct (expired now (gerer_from now l w) i); [|exact IH].
  simpl. rewrite length_insert. exact IH.
Qed.

(** The scan only ever writes LOW. *)
Lemma gerer_from_pins now l w p :
  pins (gerer_from now l w) !! p = pins w !! p \/
  pins (gerer_from now l w) !! p = Some LOW.
Proof.
  induction l as [|i l IH] using rev_ind; [left; reflexivity|].
  rewrite gerer_from_snoc, gerer_body_eq.
  destruct (expired now (gerer_from now l w) i); [|exact IH].
  simpl. destruct (decide (relayPin i = p)) as [<-|Hp].
  - right. apply lookup_insert_eq.
  - rewrite lookup_insert_ne by assumption. exact IH.
Qed.

Lemma gerer_from_untouched now l w i :
  i ∉ l -> (i < NB_ANTENNES)%nat -> (forall j, j ∈ l -> (j < NB_ANTENNES)%nat) ->
  pins (gerer_from now l w) !! relayPin i = pins w !! relayPin i /\
  relayOffTime (gerer_from now l w) !! i = relayOffTime w !! i.
Proof.
  intros Hni Hi. induction l as [|j l IH] using rev_ind; intros Hl; [auto|].
  rewrite gerer_from_snoc, gerer_body_eq.
  assert (Hji : j <> i).
  { intros ->. apply Hni. apply elem_of_app. right.
    apply list_elem_of_singleton. reflexivity. }
  assert (IH' : pins (gerer_from now l w) !! relayPin i = pins w !! relayPin i /\
                relayOffTime (gerer_from now l w) !! i = relayOffTime w !! i).
  { apply IH.
    - intros Hin. apply Hni. apply elem_of_app. auto.
    - intros x Hx. apply Hl. apply elem_of_app. auto. }
  destruct (expired now (gerer_from now l w) j); [|exact IH'].
  simpl. rewrite list_lookup_insert_ne by assumption.
  rewrite lookup_insert_ne; [exact IH'|].
  intros E. apply Hji. apply relayPin_inj; auto.
  apply Hl. apply elem_of_app. right. apply list_elem_of_singleton. reflexivity.
Qed.

(** What the scan does to an antenna it visits once: decided by the guard on
    the state the scan started from. *)
Lemma gerer_from_visit now l w i :
  NoDup l -> i ∈ l -> (forall j, j ∈ l -> (j < NB_ANTENNES)%nat) ->
  (i < length (relayOffTime w))%nat ->
  if expired now w i
  then pins (gerer_from now l w) !! relayPin i = Some LOW /\
       relayOffTime (gerer_from now l w) !! i = Some 0
  else pins (gerer_from now l w) !! relayPin i = pins w !! relayPin i /\
       relayOffTime (gerer_from now l w) !! i = relayOffTime w !! i.
Proof.
  intros Hnd Hin Hl Hlen.
  induction l as [|j l IH] using rev_ind; [inversion Hin|].
  apply list.NoDup_app in Hnd as (Hnd & Hdisj & _).
  assert (Hl' : forall x, x ∈ l -> (x < NB_ANTENNES)%nat).
  { intros x Hx. apply Hl. apply elem_of_app. auto. }
  assert (Hj : (j < NB_ANTENNES)%nat).
  { apply Hl. apply elem_of_app. right. apply list_elem_of_singleton. reflexivity. }
  rewrite gerer_from_snoc, gerer_body_eq.
  destruct (decide (j = i)) as [->|Hji].
  - assert (Hni : i ∉ l).
    { intros Hx. apply (Hdisj i Hx). apply list_elem_of_singleton. reflexivity. }
    destruct (gerer_from_untouched now l w i Hni Hj Hl') as [Hp Hd].
    assert (He : expired now (gerer_from now l w) i = expired now w i).
    { unfold expired. rewrite (deadline_lookup _ _ _ Hd). reflexivity. }
    rewrite He. destruct (expired now w i); [|auto].
    simpl. rewrite lookup_insert_eq. split; [reflexivity|].
    apply list_lookup_insert_eq. rewrite gerer_from_length. assumption.
  - assert (Hin' : i ∈ l).
    { apply elem_of_app in Hin as [Hin|Hin]; [assumption|].
      apply list_elem_of_singleton in Hin. congruence. }
    specialize (IH Hnd Hin' Hl').
    destruct (expired now (gerer_from now l w) j); [|exact IH].
    simpl. rewrite list_lookup_insert_ne by assumption.
    rewrite lookup_insert_ne; [exact IH|].
    intros E. apply Hji. apply relayPin_inj; auto.
Qed.

Lemma gererTemporisations_eq w :
  gererTemporisations w = gerer_from (horloge w) (seq 0 NB_ANTENNES) w.
Proof. reflexivity. Qed.

Lemma exclusivite_eq actif w :
  exclusivite actif w = exclusivite_from actif (seq 0 NB_ANTENNES) w.
Proof. reflexivity. Qed.

(** ** The decoder *)

Lemma button_index compId :
  FIRST_BTN_ID <= compId < FIRST_BTN_ID + Z.of_nat NB_ANTENNES ->
  (Z.to_nat (u8 (compId - FIRST_BTN_ID)) < NB_ANTENNES)%nat /\
  Z.of_nat (Z.to_nat (u8 (compId - FIRST_BTN_ID))) = compId - FIRST_BTN_ID.
Proof.
  unfold FIRST_BTN_ID, NB_ANTENNES, u8. intros H.
  rewrite Z.mod_small by lia. lia.
Qed.

Lemma traiterEvenement_cases page compId w :
  traiterEvenement page compId w = w \/
  exists k, (k < NB_ANTENNES)%nat /\ traiterEvenement page compId w = selectionner k w.
Proof.
  unfold traiterEvenement.
  destruct (page =? 0); [|left; reflexivity].
  destruct (FIRST_BTN_ID <=? compId) eqn:E1; [|left; reflexivity].
  destruct (compId <? FIRST_BTN_ID + Z.of_nat NB_ANTENNES) eqn:E2; [|left; reflexivity].
  right. eexists. split; [|reflexivity].
  apply button_index. lia.
Qed.

(** Every iteration does one of four things. *)
Lemma recevoirOctet_cases c w :
  recevoirOctet c w = w \/
  recevoirOctet c w = buffered c w \/
  recevoirOctet c w = set_pos 0 (buffered c w) \/
  exists k, (k < NB_ANTENNES)%nat /\
            recevoirOctet c w = set_pos 0 (selectionner k (buffered c w)).
Proof.
  unfold recevoirOctet. fold (buffered c w).
  destruct ((pos w =? 0) && negb (c =? 101)); [left; reflexivity|].
  destruct (7 <=? pos (buffered c w)); [|right; left; reflexivity].
  destruct (trameValide (buffer (buffered c w))); [|right; right; left; reflexivity].
  destruct (traiterEvenement_cases (nth 1 (buffer (buffered c w)) 0)
              (nth 2 (buffer (buffered c w)) 0) (buffered c w))
    as [->|(k & Hk & ->)].
  - right; right; left; reflexivity.
  - right; right; right. exists k. auto.
Qed.

(** The iteration hands exactly the recognised touch event to the filter. *)
Lemma recevoirOctet_touchEvent c w :
  recevoirOctet c w =
  match touchEvent c w with
  | Some (page, compId) => set_pos 0 (traiterEvenement page compId (buffered c w))
  | None =>
      if (pos w =? 0) && negb (c =? 0x65) then w
      else if 7 <=? u8 (pos w + 1) then set_pos 0 (buffered c w)
           else buffered c w
  end.
Proof.
  unfold recevoirOctet, touchEvent. fold (buffered c w).
  destruct ((pos w =? 0) && negb (c =? 101)); [reflexivity|].
  change (pos (buffered c w)) with (u8 (pos w + 1)).
  change (buffer (buffered c w)) with (<[Z.to_nat (pos w) := c]> (buffer w)).
  destruct (7 <=? u8 (pos w + 1)); [|reflexivity].
  destruct (trameValide _); reflexivity.
Qed.

(** ** Well-formedness is an invariant *)

Lemma wf_power_on e : wf (power_on e).
Proof. split; simpl; [reflexivity | reflexivity | lia]. Qed.

Lemma wf_selectionner k w : (k < NB_ANTENNES)%nat -> wf w -> wf (selectionner k w).
Proof.
  intros Hk [H1 H2 H3].
  destruct (selectionner_decoder k w) as (Hp & Hb & _).
  split.
  - rewrite selectionner_length. assumption.
  - rewrite Hb. assumption.
  - rewrite Hp. assumption.
Qed.

Lemma wf_set_pos v w :
  0 <= v < 7 -> length (relayOffTime w) = NB_ANTENNES ->
  length (buffer w) = 7%nat -> wf (set_pos v w).
Proof. intros Hv H1 H2. split; assumption. Qed.

Lemma wf_recevoirOctet c w : wf w -> wf (recevoirOctet c w).
Proof.
  intros Hw. pose proof Hw as [H1 H2 H3].
  assert (Hr : length (relayOffTime (buffered c w)) = NB_ANTENNES) by exact H1.
  assert (Hb : length (buffer (buffered c w)) = 7%nat).
  { simpl. rewrite length_insert. assumption. }
  unfold recevoirOctet. fold (buffered c w).
  destruct ((pos w =? 0) && negb (c =? 101)); [assumption|].
  destruct (7 <=? pos (buffered c w)) eqn:E7.
  - destruct (trameValide _);
      [destruct (traiterEvenement_cases (nth 1 (buffer (buffered c w)) 0)
                   (nth 2 (buffer (buffered c w)) 0) (buffered c w))
         as [->|(k & Hk & ->)]|].
    + apply wf_set_pos; [lia | assumption..].
    + destruct (selectionner_decoder k (buffered c w)) as (_ & Hbuf & _).
      apply wf_set_pos; [lia | |].
      * rewrite selectionner_length. assumption.
      * rewrite Hbuf. assumption.
    + apply wf_set_pos; [lia | assumption..].
  - apply Z.leb_gt in E7. split; [assumption..|].
    change (pos (buffered c w)) with (u8 (pos w + 1)) in *.
    unfold u8 in *. rewrite Z.mod_small in * by lia. lia.
Qed.

(** ** Exclusivity of the relay bank *)

Lemma relay_on_true w i : relay_on w i = true <-> pins w !! relayPin i = Some HIGH.
Proof. unfold relay_on. apply bool_decide_eq_true. Qed.

Lemma relay_on_false w i : pins w !! relayPin i = Some LOW -> relay_on w i = false.
Proof. intros H. unfold relay_on. rewrite H. reflexivity. Qed.

(** A step that only lowers pins keeps the bank exclusive. *)
Lemma exclusive_lowered w w' :
  (forall p, pins w' !! p = pins w !! p \/ pins w' !! p = Some LOW) ->
  exclusive w -> exclusive w'.
Proof.
  intros Hlow Hex i j Hi Hj Hon_i Hon_j.
  apply relay_on_true in Hon_i, Hon_j.
  apply Hex; try assumption; apply relay_on_true.
  - destruct (Hlow (relayPin i)) as [E|E]; rewrite E in Hon_i; [assumption|discriminate].
  - destruct (Hlow (relayPin j)) as [E|E]; rewrite E in Hon_j; [assumption|discriminate].
Qed.

Lemma exclusive_same_pins w w' : pins w' = pins w -> exclusive w -> exclusive w'.
Proof. intros E. apply exclusive_lowered. intros p. left. rewrite E. reflexivity. Qed.

(** A selection leaves exactly its own relay on, whatever the bank was. *)
Lemma exclusive_selectionner k w : (k < NB_ANTENNES)%nat -> exclusive (selectionner k w).
Proof.
  intros Hk i j Hi Hj Hon_i Hon_j.
  apply relay_on_true in Hon_i, Hon_j.
  destruct (decide (i = k)) as [->|Hik]; destruct (decide (j = k)) as [->|Hjk];
    try reflexivity; exfalso.
  - rewrite selectionner_relay_off in Hon_j by assumption. discriminate.
  - rewrite selectionner_relay_off in Hon_i by assumption. discriminate.
  - rewrite selectionner_relay_off in Hon_i by assumption. discriminate.
Qed.

Lemma filter_at_most_one (P : nat -> Prop) `{forall x, Decision (P x)} (l : list nat) :
  NoDup l -> (forall i j, i ∈ l -> j ∈ l -> P i -> P j -> i = j) ->
  (length (filter P l) <= 1)%nat.
Proof.
  induction l as [|a l IH]; intros Hnd Huniq; [simpl; lia|].
  apply list.NoDup_cons in Hnd as [Ha Hnd].
  assert (IHl : (length (filter P l) <= 1)%nat).
  { apply IH; [assumption|]. intros i j Hi Hj. apply Huniq; apply elem_of_cons; auto. }
  destruct (decide (P a)) as [Hpa|Hpa].
  - rewrite filter_cons_True by assumption.
    destruct (filter P l) as [|b r] eqn:E; [simpl; lia|].
    exfalso. assert (Hb : b ∈ filter P l) by (rewrite E; apply elem_of_cons; auto).
    apply list_elem_of_filter in Hb as [Hpb Hbl].
    apply Ha. rewrite (Huniq a b); auto; apply elem_of_cons; auto.
  - rewrite filter_cons_False by assumption. exact IHl.
Qed.

Lemma exclusive_energized w : exclusive w -> (length (energized w) <= 1)%nat.
Proof.
  intros Hex. unfold energized.
  apply filter_at_most_one; [apply NoDup_seq|].
  intros i j Hi Hj. apply Hex; apply elem_of_antennas; assumption.
Qed.

(** ** Start-up *)

Lemma setup_from_snoc l i w :
  setup_from (l ++ [i]) w = setup_body i (setup_from l w).
Proof. unfold setup_from. rewrite foldl_app. reflexivity. Qed.

Lemma setup_from_rest l w :
  same_inputs w (set_modes (fun _ => modes w) (setup_from l w)) /\
  relayOffTime (setup_from l w) = relayOffTime w /\
  tx (setup_from l w) = tx w.
Proof.
  induction l as [|i l IH] using rev_ind.
  - repeat split.
  - rewrite setup_from_snoc. exact IH.
Qed.

Lemma setup_from_pins l w i :
  i ∈ l -> pins (setup_from l w) !! relayPin i = Some LOW.
Proof.
  induction l as [|j l IH] using rev_ind; intros Hin; [inversion Hin|].
  rewrite setup_from_snoc. simpl.
  destruct (decide (relayPin j = relayPin i)) as [->|Hne].
  - apply lookup_insert_eq.
  - rewrite lookup_insert_ne by assumption. apply IH.
    apply elem_of_app in Hin as [Hin|Hin]; [assumption|].
    apply list_elem_of_singleton in Hin. congruence.
Qed.

Lemma setup_eq w :
  setup w =
  if (0 <=? lireSelectionEEPROM w) &&
     (lireSelectionEEPROM w <? i8 (Z.of_nat NB_ANTENNES))
  then setBoutonOn (Z.to_nat (u8 (lireSelectionEEPROM w)))
         (exclusivite (Z.to_nat (u8 (lireSelectionEEPROM w))) (setup_loaded w))
  else setup_loaded w.
Proof.
  unfold setup, setup_loaded, for_loop.
  fold (setup_from (seq 0 NB_ANTENNES) w).
  destruct (setup_from_rest (seq 0 NB_ANTENNES) w) as ((_ & _ & _ & _ & He & _) & _).
  change (eeprom (setup_from (seq 0 NB_ANTENNES) w) = eeprom w) in He.
  assert (Hl : lireSelectionEEPROM (delay 500 (setup_from (seq 0 NB_ANTENNES) w)) =
               lireSelectionEEPROM w).
  { unfold lireSelectionEEPROM, EEPROM_read, delay, set_horloge.
    cbn [eeprom]. rewrite He. reflexivity. }
  cbv beta. unfold set_antenneSelectionnee at 1 2 3 4 5.
  cbn [antenneSelectionnee]. rewrite Hl. reflexivity.
Qed.

Lemma setup_loaded_low w i :
  (i < NB_ANTENNES)%nat -> pins (setup_loaded w) !! relayPin i = Some LOW.
Proof.
  intros Hi. unfold setup_loaded, set_antenneSelectionnee, delay, set_horloge.
  cbn [pins]. apply setup_from_pins. apply elem_of_antennas. exact Hi.
Qed.

(** Every relay is off when [setup] returns, whatever the EEPROM held. *)
Lemma setup_low w i :
  (i < NB_ANTENNES)%nat -> pins (setup w) !! relayPin i = Some LOW.
Proof.
  intros Hi. rewrite setup_eq.
  destruct (_ && _); [|apply setup_loaded_low; exact Hi].
  rewrite setBoutonOn_eq, exclusivite_eq. unfold set_tx. cbn [pins].
  match goal with
  | |- pins (exclusivite_from ?k ?l ?x) !! ?p = _ =>
      destruct (exclusivite_from_pins k l x p) as [E|[E _]]; rewrite E
  end; [apply setup_loaded_low; exact Hi | reflexivity].
Qed.

Lemma exclusive_setup w : exclusive (setup w).
Proof.
  intros i j Hi Hj Hon _. apply relay_on_true in Hon.
  rewrite setup_low in Hon by assumption. discriminate.
Qed.

(** ** Runs of the sketch *)

Lemma pins_set_pos v w : pins (set_pos v w) = pins w.
Proof. reflexivity. Qed.

Lemma pins_set_rx v w : pins (set_rx v w) = pins w.
Proof. reflexivity. Qed.

Lemma pins_buffered c w : pins (buffered c w) = pins w.
Proof. reflexivity. Qed.

Lemma recevoirOctet_exclusive c w : exclusive w -> exclusive (recevoirOctet c w).
Proof.
  intros Hex.
  destruct (recevoirOctet_cases c w) as [E|[E|[E|(k & Hk & E)]]]; rewrite E.
  - assumption.
  - apply (exclusive_same_pins w); [apply pins_buffered | exact Hex].
  - apply (exclusive_same_pins w); [|exact Hex].
    rewrite pins_set_pos. apply pins_buffered.
  - apply (exclusive_same_pins (selectionner k (buffered c w))).
    + apply pins_set_pos.
    + apply exclusive_selectionner. exact Hk.
Qed.

Lemma recevoirBoucle_exclusive queue w :
  exclusive w -> exclusive (recevoirBoucle queue w).
Proof.
  revert w. induction queue as [|c rest IH]; intros w Hex; simpl.
  - apply (exclusive_same_pins w); [apply pins_set_rx | exact Hex].
  - apply IH. apply recevoirOctet_exclusive.
    apply (exclusive_same_pins w); [apply pins_set_rx | exact Hex].
Qed.

Lemma gererTemporisations_exclusive w :
  exclusive w -> exclusive (gererTemporisations w).
Proof.
  rewrite gererTemporisations_eq. apply exclusive_lowered.
  intros p. apply gerer_from_pins.
Qed.

Lemma react_exclusive w s : exclusive w -> exclusive (react w s).
Proof.
  destruct s as [ms|bytes| |]; simpl.
  - apply exclusive_same_pins. reflexivity.
  - apply exclusive_same_pins. reflexivity.
  - apply recevoirBoucle_exclusive.
  - apply gererTemporisations_exclusive.
Qed.

Lemma run_exclusive w trace : exclusive w -> exclusive (run w trace).
Proof.
  revert w. induction trace as [|s trace IH]; intros w Hex; simpl; [assumption|].
  apply IH. apply react_exclusive. exact Hex.
Qed.

Lemma iterations_exclusive bytes w :
  exclusive w -> exclusive (foldl (fun acc c => recevoirOctet c acc) w bytes).
Proof.
  revert w. induction bytes as [|c bytes IH]; intros w Hex; simpl; [assumption|].
  apply IH. apply recevoirOctet_exclusive. exact Hex.
Qed.

(** C1.  Exclusivity invariant: after start-up, however touch frames, the
    passing of time, calls of [recevoirEvenementsNextion] and calls of
    [gererTemporisations] are interleaved, at most one of the eight relay
    outputs is HIGH once a call has returned; the same holds after each
    iteration of the receive loop. *)
Theorem exclusivity_invariant (w : world) (trace : list stimulus) :
  (length (energized (run (setup w) trace)) <= 1)%nat /\
  forall bytes,
    (length (energized (foldl (fun acc c => recevoirOctet c acc)
                              (run (setup w) trace) bytes)) <= 1)%nat.
Proof.
  pose proof (run_exclusive (setup w) trace (exclusive_setup w)) as Hex.
  split.
  - apply exclusive_energized. exact Hex.
  - intros bytes. apply exclusive_energized, iterations_exclusive. exact Hex.
Qed.

(** ** The durable store: claims *)

(** C3.  Persistence round-trip: for every index [k] below 8, after
    [sauvegarderSelection k] the two cells hold the magic byte and [k], and
    [lireSelectionEEPROM] returns [k]. *)
Theorem save_load_roundtrip (k : nat) (w : world) :
  (k < NB_ANTENNES)%nat ->
  EEPROM_read EEPROM_MAGIC_ADDR (sauvegarderSelection k w) = EEPROM_MAGIC_VALUE /\
  EEPROM_read EEPROM_SELECTED_ADDR (sauvegarderSelection k w) = Z.of_nat k /\
  lireSelectionEEPROM (sauvegarderSelection k w) = Z.of_nat k.
Proof.
  intros Hk.
  destruct (sauvegarderSelection_eq k w) as (e' & -> & He).
  unfold lireSelectionEEPROM, EEPROM_read. cbn [eeprom set_eeprom].
  rewrite !He. cbn [decide]. simpl decide.
  repeat split.
  antenna_cases k Hk; reflexivity.
Qed.

Lemma save_load_roundtrip_witness :
  lireSelectionEEPROM (sauvegarderSelection 5 (power_on (fun _ => 255))) = 5.
Proof.
  apply (save_load_roundtrip 5 (power_on (fun _ => 255))).
  unfold NB_ANTENNES. lia.
Defined.

(** With a byte in the index cell, [lireSelectionEEPROM] yields -1 or an
    index below 8: there is no third outcome. *)
Lemma lireSelectionEEPROM_cases w :
  is_byte (EEPROM_read EEPROM_SELECTED_ADDR w) ->
  lireSelectionEEPROM w = -1 \/
  exists k, (k < NB_ANTENNES)%nat /\ lireSelectionEEPROM w = Z.of_nat k.
Proof.
  intros Hb. unfold lireSelectionEEPROM.
  destruct (negb _); [left; reflexivity|].
  destruct (Z.of_nat NB_ANTENNES <=? _) eqn:E; [left; reflexivity|].
  apply Z.leb_gt in E. right.
  exists (Z.to_nat (EEPROM_read EEPROM_SELECTED_ADDR w)).
  unfold is_byte, NB_ANTENNES in *.
  split; [lia|].
  rewrite <- (i8_small (Z.to_nat (EEPROM_read EEPROM_SELECTED_ADDR w)))
    by (unfold NB_ANTENNES; lia).
  rewrite Z2Nat.id by lia. reflexivity.
Qed.

(** C4.  Invalid persisted state: whatever the cells hold, a magic byte
    other than 0xA5 makes [lireSelectionEEPROM] return -1 whatever the index
    byte is, and so does an index byte of 8 or more. *)
Theorem load_rejects_invalid (w : world) :
  EEPROM_read EEPROM_MAGIC_ADDR w <> EEPROM_MAGIC_VALUE \/
  Z.of_nat NB_ANTENNES <= EEPROM_read EEPROM_SELECTED_ADDR w ->
  lireSelectionEEPROM w = -1.
Proof.
  intros H. unfold lireSelectionEEPROM.
  destruct (EEPROM_read EEPROM_MAGIC_ADDR w =? EEPROM_MAGIC_VALUE) eqn:Em; simpl.
  - destruct H as [H|H]; [apply Z.eqb_eq in Em; contradiction|].
    apply Z.leb_le in H. rewrite H. reflexivity.
  - reflexivity.
Qed.

Lemma load_rejects_invalid_witness :
  lireSelectionEEPROM (power_on (fun a => if a =? 0 then 0x5A else 3)) = -1 /\
  lireSelectionEEPROM (power_on (fun a => if a =? 0 then 0xA5 else 8)) = -1.
Proof.
  split.
  - apply (load_rejects_invalid (power_on (fun a => if a =? 0 then 0x5A else 3))).
    left. vm_compute. discriminate.
  - apply (load_rejects_invalid (power_on (fun a => if a =? 0 then 0xA5 else 8))).
    right. vm_compute. discriminate.
Defined.

Lemma u8_byte x : is_byte x -> u8 x = x.
Proof. intros H. apply Z.mod_small. exact H. Qed.

(** ** The decoder, byte by byte *)

Lemma decoder_at_self w : w = decoder_at (pos w) (buffer w) (rx w) w.
Proof. destruct w. reflexivity. Qed.

Lemma set_rx_decoder_at q' p b q w :
  set_rx q' (decoder_at p b q w) = decoder_at p b q' w.
Proof. reflexivity. Qed.

Lemma set_pos_decoder_at p' p b q w :
  set_pos p' (decoder_at p b q w) = decoder_at p' b q w.
Proof. reflexivity. Qed.

(** At position 0 a byte other than 0x65 is dropped. *)
Lemma recevoirOctet_skip c b q w :
  c <> 0x65 -> recevoirOctet c (decoder_at 0 b q w) = decoder_at 0 b q w.
Proof.
  intros Hc. unfold recevoirOctet. cbn [pos decoder_at].
  apply Z.eqb_neq in Hc. rewrite Hc. reflexivity.
Qed.

(** Below position 6 the byte is stored and the position moves on. *)
Lemma recevoirOctet_store c p b q w :
  0 <= p < 6 -> p <> 0 \/ c = 0x65 ->
  recevoirOctet c (decoder_at p b q w) =
  decoder_at (p + 1) (<[Z.to_nat p := c]> b) q w.
Proof.
  intros Hp Hc. unfold recevoirOctet. cbn [pos decoder_at].
  replace ((p =? 0) && negb (c =? 101)) with false.
  2:{ symmetry. apply andb_false_iff.
      destruct Hc as [Hc|Hc]; [left; apply Z.eqb_neq; exact Hc|right; subst; reflexivity]. }
  unfold set_buffer, set_pos. cbn [pos buffer pins modes relayOffTime
    antenneSelectionnee eeprom horloge rx tx].
  unfold u8. rewrite Z.mod_small by lia.
  replace (7 <=? p + 1) with false by (symmetry; apply Z.leb_gt; lia).
  reflexivity.
Qed.

(** At position 6 the byte completes the window: the window is validated,
    a valid one is handed to the filter, and the position goes back to 0. *)
Lemma recevoirOctet_full c b q w :
  recevoirOctet c (decoder_at 6 b q w) =
  set_pos 0
    (if trameValide (<[6%nat := c]> b)
     then traiterEvenement (nth 1 (<[6%nat := c]> b) 0) (nth 2 (<[6%nat := c]> b) 0)
            (decoder_at 7 (<[6%nat := c]> b) q w)
     else decoder_at 7 (<[6%nat := c]> b) q w).
Proof. reflexivity. Qed.

Lemma touchEvent_skip c b q w :
  c <> 0x65 -> touchEvent c (decoder_at 0 b q w) = None.
Proof.
  intros Hc. unfold touchEvent. cbn [pos decoder_at].
  apply Z.eqb_neq in Hc. rewrite Hc. reflexivity.
Qed.

Lemma touchEvent_store c p b q w :
  0 <= p < 6 -> touchEvent c (decoder_at p b q w) = None.
Proof.
  intros Hp. unfold touchEvent. cbn [pos buffer decoder_at].
  destruct ((p =? 0) && negb (c =? 101)); [reflexivity|].
  unfold u8. rewrite Z.mod_small by lia.
  replace (7 <=? p + 1) with false by (symmetry; apply Z.leb_gt; lia).
  reflexivity.
Qed.

Lemma touchEvent_full c b q w :
  touchEvent c (decoder_at 6 b q w) =
  if trameValide (<[6%nat := c]> b)
  then Some (nth 1 (<[6%nat := c]> b) 0, nth 2 (<[6%nat := c]> b) 0) else None.
Proof. reflexivity. Qed.

(** Runs the decoder over the bytes that are written out in the goal. *)
Ltac decode_step :=
  first
    [ rewrite set_rx_decoder_at
    | rewrite set_pos_decoder_at
    | rewrite touchEvent_store by lia
    | rewrite touchEvent_skip by discriminate
    | rewrite touchEvent_full
    | rewrite recevoirOctet_store by (first [lia | left; lia | right; reflexivity])
    | rewrite recevoirOctet_skip by discriminate
    | rewrite recevoirOctet_full
    | match goal with
      | |- context [decoder_at (?a + ?b)] =>
          let v := eval vm_compute in (a + b) in change (a + b) with v
      | |- context [decoder_at ?p (@insert nat Z (list Z) ?I ?i ?c ?b)] =>
          let v := eval vm_compute in (@insert nat Z (list Z) I i c b) in
          change (@insert nat Z (list Z) I i c b) with v
      | |- context [trameValide ?b] =>
          let v := eval vm_compute in (trameValide b) in
          change (trameValide b) with v; cbv iota
      | |- context [nth ?n (?x :: ?l) 0] =>
          let v := eval cbv [nth] in (nth n (x :: l) 0) in
          change (nth n (x :: l) 0) with v
      end ].

Ltac decode :=
  cbn [recevoirBoucle touchEvents app];
  rewrite ?u8_byte by (unfold is_byte in *; lia);
  repeat decode_step.

(** ** Frames through the decoder *)

(** From write position 0, a well-terminated frame is handed to the filter
    when its seventh byte is read, and the window is reset. *)
Lemma recevoirBoucle_trame page compId state w :
  length (buffer w) = 7%nat -> pos w = 0 ->
  is_byte page -> is_byte compId -> is_byte state ->
  recevoirBoucle (trame page compId state) w =
  set_rx [] (set_pos 0
    (traiterEvenement page compId
       (set_pos 7 (set_buffer (fun _ => trame page compId state) (set_rx [] w))))).
Proof.
  intros Hlen Hpos Hp Hc Hs.
  rewrite (decoder_at_self w) at 1. rewrite Hpos.
  destruct (buffer w) as [|b0 [|b1 [|b2 [|b3 [|b4 [|b5 [|b6 [|]]]]]]]];
    try discriminate.
  unfold trame. decode. reflexivity.
Qed.

(** ** The filter in front of the selection *)

Lemma traiterEvenement_ignored page compId w :
  ~ accepted page compId -> traiterEvenement page compId w = w.
Proof.
  unfold accepted, traiterEvenement. intros H.
  destruct (page =? 0) eqn:E0; [|reflexivity].
  destruct (FIRST_BTN_ID <=? compId) eqn:E1; [|reflexivity].
  destruct (compId <? FIRST_BTN_ID + Z.of_nat NB_ANTENNES) eqn:E2; [|reflexivity].
  exfalso. apply H. lia.
Qed.

Lemma traiterEvenement_accepted k w :
  traiterEvenement 0 (FIRST_BTN_ID + Z.of_nat k) w =
  if (k <? NB_ANTENNES)%nat then selectionner k w else w.
Proof.
  unfold traiterEvenement. cbn [Z.eqb].
  destruct (k <? NB_ANTENNES)%nat eqn:E.
  - apply Nat.ltb_lt in E.
    replace (FIRST_BTN_ID <=? FIRST_BTN_ID + Z.of_nat k) with true
      by (symmetry; apply Z.leb_le; lia).
    replace (FIRST_BTN_ID + Z.of_nat k <? FIRST_BTN_ID + Z.of_nat NB_ANTENNES) with true
      by (symmetry; apply Z.ltb_lt; lia).
    cbn [andb]. f_equal.
    replace (FIRST_BTN_ID + Z.of_nat k - FIRST_BTN_ID) with (Z.of_nat k) by lia.
    unfold u8, NB_ANTENNES in *. rewrite Z.mod_small by lia. apply Nat2Z.id.
  - apply Nat.ltb_ge in E.
    replace (FIRST_BTN_ID + Z.of_nat k <? FIRST_BTN_ID + Z.of_nat NB_ANTENNES) with false
      by (symmetry; apply Z.ltb_ge; lia).
    rewrite andb_false_r. reflexivity.
Qed.

(** C7.  Ignored events: a decoded touch event whose page is not 0, or whose
    component id is outside [FIRST_BTN_ID, FIRST_BTN_ID + 8), leaves the whole
    state as it was; and when such an event arrives as a frame, only the
    decoder's own window and the receive queue have moved: no pin, no
    deadline, no selection, no EEPROM cell and no byte towards the display
    has changed. *)
Theorem ignored_event_no_effect (page compId state : Z) (w : world) :
  ~ accepted page compId ->
  traiterEvenement page compId w = w /\
  (wf w -> pos w = 0 -> is_byte page -> is_byte compId -> is_byte state ->
   let w' := recevoirEvenementsNextion (set_rx (trame page compId state) w) in
   pins w' = pins w /\ modes w' = modes w /\ relayOffTime w' = relayOffTime w /\
   antenneSelectionnee w' = antenneSelectionnee w /\ eeprom w' = eeprom w /\
   tx w' = tx w /\ horloge w' = horloge w).
Proof.
  intros Hna. split; [apply traiterEvenement_ignored; exact Hna|].
  intros [_ Hlen _] Hpos Hp Hc Hs w'. subst w'.
  unfold recevoirEvenementsNextion. cbn [rx set_rx].
  rewrite recevoirBoucle_trame by assumption.
  rewrite traiterEvenement_ignored by exact Hna.
  repeat split.
Qed.

Lemma ignored_event_no_effect_witness :
  traiterEvenement 0 10 (setup (power_on (fun _ => 0xFF))) =
  setup (power_on (fun _ => 0xFF)) /\
  tx (recevoirEvenementsNextion
        (set_rx (trame 0 10 1) (setup (power_on (fun _ => 0xFF))))) =
  tx (setup (power_on (fun _ => 0xFF))).
Proof.
  destruct (ignored_event_no_effect 0 10 1 (setup (power_on (fun _ => 0xFF))))
    as [H1 H2].
  - unfold accepted, FIRST_BTN_ID, NB_ANTENNES. lia.
  - split; [exact H1|]. apply H2.
    + wf_by_computation.
    + reflexivity.
    + unfold is_byte. lia.
    + unfold is_byte. lia.
    + unfold is_byte. lia.
Defined.

Lemma touchEvents_trame page compId state w :
  length (buffer w) = 7%nat -> pos w = 0 ->
  is_byte page -> is_byte compId -> is_byte state ->
  touchEvents (trame page compId state) w = [(page, compId)].
Proof.
  intros Hlen Hpos Hp Hc Hs.
  rewrite (decoder_at_self w). rewrite Hpos.
  destruct (buffer w) as [|b0 [|b1 [|b2 [|b3 [|b4 [|b5 [|b6 [|]]]]]]]];
    try discriminate.
  unfold trame. decode. reflexivity.
Qed.

Lemma display_same_tx w w' : tx w' = tx w -> display w' = display w.
Proof. unfold display. intros ->. reflexivity. Qed.

Lemma display_idle_same_tx w w' : tx w' = tx w -> display_idle w -> display_idle w'.
Proof. unfold display_idle. intros E. rewrite (display_same_tx _ _ E). auto. Qed.

Lemma indicator_same_tx w w' i : tx w' = tx w -> indicator w' i = indicator w i.
Proof. unfold indicator. intros E. rewrite (display_same_tx _ _ E). reflexivity. Qed.

(** A frame for button [k], read from write position 0, selects antenna [k]. *)
Lemma frame_selects k state w :
  wf w -> pos w = 0 -> (k < NB_ANTENNES)%nat -> is_byte state ->
  recevoirEvenementsNextion (set_rx (trame 0 (FIRST_BTN_ID + Z.of_nat k) state) w) =
  set_rx [] (set_pos 0
    (selectionner k (framed 0 (FIRST_BTN_ID + Z.of_nat k) state w))).
Proof.
  intros [_ Hlen _] Hpos Hk Hs.
  unfold recevoirEvenementsNextion. cbn [rx set_rx].
  rewrite recevoirBoucle_trame; try assumption.
  - rewrite traiterEvenement_accepted.
    apply Nat.ltb_lt in Hk. rewrite Hk. reflexivity.
  - unfold is_byte. lia.
  - unfold is_byte, FIRST_BTN_ID, NB_ANTENNES in *. lia.
Qed.

(** Observations once the window has been reset and the queue emptied. *)
Lemma after_frame_relay_on y i : relay_on (set_rx [] (set_pos 0 y)) i = relay_on y i.
Proof. reflexivity. Qed.

Lemma after_frame_deadline y i : deadline (set_rx [] (set_pos 0 y)) i = deadline y i.
Proof. reflexivity. Qed.

Lemma after_frame_indicator y i : indicator (set_rx [] (set_pos 0 y)) i = indicator y i.
Proof. reflexivity. Qed.

Lemma after_frame_tx y : tx (set_rx [] (set_pos 0 y)) = tx y.
Proof. reflexivity. Qed.

Lemma after_frame_antenne y :
  antenneSelectionnee (set_rx [] (set_pos 0 y)) = antenneSelectionnee y.
Proof. reflexivity. Qed.

Lemma after_frame_eeprom y a : EEPROM_read a (set_rx [] (set_pos 0 y)) = EEPROM_read a y.
Proof. reflexivity. Qed.

Lemma frame_selects_button compId k state w :
  compId = FIRST_BTN_ID + Z.of_nat k ->
  wf w -> pos w = 0 -> (k < NB_ANTENNES)%nat -> is_byte state ->
  recevoirEvenementsNextion (set_rx (trame 0 compId state) w) =
  set_rx [] (set_pos 0 (selectionner k (framed 0 compId state w))).
Proof. intros ->. apply frame_selects. Qed.

(** C5.  Scenario: from write position 0, the frame
    [0x65 0x00 0x02 0x01 0xFF 0xFF 0xFF] is decoded as the touch event
    (page 0, component 2), which selects antenna 0: relay 0 is HIGH and the
    seven other relays are LOW, the "off" commands of buttons 1 to 7 and
    the "on" command of button 0 have been sent, so that button 0 shows "on"
    and the seven others "off", the selection is 0, and the EEPROM holds the
    magic byte 0xA5 and the index 0. *)
Theorem scenario_first_button (w : world) :
  wf w -> pos w = 0 -> display_idle w ->
  let w' := recevoirEvenementsNextion (set_rx (trame 0 2 1) w) in
  touchEvents (trame 0 2 1) w = [(0, 2)] /\
  relay_on w' 0 = true /\
  (forall i, (0 < i < NB_ANTENNES)%nat -> relay_on w' i = false) /\
  indicator w' 0 = Some true /\
  (forall i, (0 < i < NB_ANTENNES)%nat -> indicator w' i = Some false) /\
  tx w' = tx w ++ off_cmds 0 (seq 0 NB_ANTENNES) ++ cmd 0 1 /\
  antenneSelectionnee w' = 0 /\
  EEPROM_read EEPROM_MAGIC_ADDR w' = EEPROM_MAGIC_VALUE /\
  EEPROM_read EEPROM_SELECTED_ADDR w' = 0.
Proof.
  intros Hwf Hpos Hidle w'. subst w'.
  assert (H0 : (0 < NB_ANTENNES)%nat) by (unfold NB_ANTENNES; lia).
  assert (Hs : is_byte 1) by (unfold is_byte; lia).
  rewrite (frame_selects_button 2 0 1 w eq_refl Hwf Hpos H0 Hs).
  assert (Hx : display_idle (framed 0 2 1 w)).
  { apply (display_idle_same_tx w); [reflexivity|assumption]. }
  destruct (selectionner_display 0 _ H0 Hx) as (_ & Hon & Hoff).
  destruct (selectionner_eeprom 0 (framed 0 2 1 w)) as (Hm & Hi & _).
  split; [|repeat split].
  - destruct Hwf as [_ Hlen _].
    apply touchEvents_trame; try assumption; unfold is_byte; lia.
  - rewrite after_frame_relay_on. apply relay_on_true, selectionner_relay_on.
  - intros i Hi'. rewrite after_frame_relay_on.
    apply relay_on_false, selectionner_relay_off; lia.
  - rewrite after_frame_indicator. exact Hon.
  - intros i Hi'. rewrite after_frame_indicator. apply Hoff; lia.
  - rewrite after_frame_tx. apply (selectionner_tx 0 (framed 0 2 1 w)).
  - rewrite after_frame_antenne. apply (selectionner_antenne 0 _ H0).
  - rewrite after_frame_eeprom. exact Hm.
  - rewrite after_frame_eeprom. exact Hi.
Qed.

(** ** Resynchronisation *)






Lemma scenario_first_button_witness :
  energized (recevoirEvenementsNextion (set_rx (trame 0 2 1) w_boot)) = [0%nat] /\
  relay_on (recevoirEvenementsNextion (set_rx (trame 0 2 1) w_boot)) 0 = true.
Proof.
  split; [vm_compute; reflexivity|].
  apply (scenario_first_button w_boot).
  - wf_by_computation.
  - reflexivity.
  - split; vm_compute; reflexivity.
Defined.

(** ** Start-up recovery *)

Lemma setup_loaded_fields w :
  relayOffTime (setup_loaded w) = relayOffTime w /\
  tx (setup_loaded w) = tx w /\
  antenneSelectionnee (setup_loaded w) = lireSelectionEEPROM w.
Proof.
  destruct (setup_from_rest (seq 0 NB_ANTENNES) w) as (_ & Hr & Ht).
  unfold setup_loaded, set_antenneSelectionnee, delay, set_horloge.
  cbn [relayOffTime tx antenneSelectionnee]. auto.
Qed.

(** Replaying the first two steps of a selection: what the display shows. *)
Lemma replay_display k x :
  (k < NB_ANTENNES)%nat -> display_idle x ->
  indicator (setBoutonOn k (exclusivite k x)) k = Some true /\
  (forall i, (i < NB_ANTENNES)%nat -> i <> k ->
             indicator (setBoutonOn k (exclusivite k x)) i = Some false).
Proof.
  intros Hk Hidle. rewrite exclusivite_eq.
  destruct (exclusivite_from_display k (seq 0 NB_ANTENNES) x Hidle)
    as ([Hp Hf] & Hoff & _).
  { intros i. apply elem_of_antennas. }
  assert (Htx : tx (setBoutonOn k (exclusivite_from k (seq 0 NB_ANTENNES) x)) =
                tx (exclusivite_from k (seq 0 NB_ANTENNES) x) ++ cmd k 1)
    by apply setBoutonOn_tx.
  unfold indicator. rewrite (display_app _ _ _ Htx), nextion_cmd by auto.
  cbn [bt_val]. split.
  - apply lookup_insert_eq.
  - intros i Hi Hne. rewrite lookup_insert_ne by congruence.
    apply Hoff; [apply elem_of_antennas|]; assumption.
Qed.

Lemma power_on_idle e : display_idle (power_on e).
Proof. split; reflexivity. Qed.

Lemma setup_points_last w : list.last (setup_points w) = Some (setup w).
Proof.
  unfold setup_points, setup, replay_points. cbv beta zeta.
  generalize (set_antenneSelectionnee
                (lireSelectionEEPROM (delay 500 (for_loop NB_ANTENNES setup_body w)))
                (delay 500 (for_loop NB_ANTENNES setup_body w))).
  generalize (delay 500 (for_loop NB_ANTENNES setup_body w)).
  generalize (for_loop NB_ANTENNES setup_body w).
  intros s0 s1 s2.
  destruct ((0 <=? antenneSelectionnee s2) &&
            (antenneSelectionnee s2 <? i8 (Z.of_nat NB_ANTENNES))).
  - rewrite app_assoc, last_snoc. reflexivity.
  - reflexivity.
Qed.

Lemma nth_insert_zero (l : list Z) i j :
  nth i (<[j := 0]> l) 0 = nth i l 0 \/ nth i (<[j := 0]> l) 0 = 0.
Proof.
  destruct (decide (j = i)) as [->|Hne].
  - right. rewrite nth_lookup.
    destruct (decide (i < length l)%nat) as [Hlt|Hge].
    + rewrite list_lookup_insert_eq by exact Hlt. reflexivity.
    + rewrite list_insert_ge by lia. rewrite lookup_ge_None_2 by lia. reflexivity.
  - left. rewrite !nth_lookup, list_lookup_insert_ne by exact Hne. reflexivity.
Qed.

(** The loop of [exclusivite] sets no deadline: it leaves one or clears it. *)
Lemma exclusivite_from_deadline_cases k l w i :
  deadline (exclusivite_from k l w) i = deadline w i \/
  deadline (exclusivite_from k l w) i = 0.
Proof.
  induction l as [|j l IH] using rev_ind; [left; reflexivity|].
  rewrite exclusivite_from_snoc.
  destruct (decide (j = k)) as [->|Hne].
  - rewrite exclusivite_body_same. exact IH.
  - rewrite exclusivite_body_other by assumption.
    unfold deadline in *. cbn [relayOffTime set_tx set_relayOffTime set_pins].
    destruct (nth_insert_zero (relayOffTime (exclusivite_from k l w)) i j) as [E|E];
      rewrite E; [exact IH | right; reflexivity].
Qed.

Lemma replay_points_low k s x i :
  (forall j, (j < NB_ANTENNES)%nat -> pins s !! relayPin j = Some LOW) ->
  (forall j, deadline s j = 0) ->
  x ∈ replay_points k s -> (i < NB_ANTENNES)%nat ->
  pins x !! relayPin i = Some LOW /\ deadline x i = 0.
Proof.
  intros Hp Hd Hx Hi.
  assert (Hloop : forall l,
            pins (exclusivite_from k l s) !! relayPin i = Some LOW /\
            deadline (exclusivite_from k l s) i = 0).
  { intros l. split.
    - destruct (exclusivite_from_pins k l s (relayPin i)) as [E|[E _]]; rewrite E;
        [apply Hp; exact Hi | reflexivity].
    - destruct (exclusivite_from_deadline_cases k l s i) as [E|E]; rewrite E;
        [apply Hd | reflexivity]. }
  unfold replay_points in Hx. apply elem_of_app in Hx as [Hx|Hx].
  - apply list_elem_of_fmap in Hx as (n & -> & _).
    rewrite for_loop_unfold. apply Hloop.
  - apply list_elem_of_singleton in Hx. subst x.
    rewrite setBoutonOn_eq, exclusivite_eq.
    destruct (Hloop (seq 0 NB_ANTENNES)) as [H1 H2].
    generalize dependent (exclusivite_from k (seq 0 NB_ANTENNES) s).
    intros y H1 H2. split; assumption.
Qed.

(** From its first loop on, [setup] keeps every relay LOW and sets no
    deadline. *)
Lemma setup_points_low w x i :
  (forall j, deadline w j = 0) ->
  x ∈ setup_points w -> (i < NB_ANTENNES)%nat ->
  pins x !! relayPin i = Some LOW /\ deadline x i = 0.
Proof.
  intros Hd Hx Hi. unfold setup_points in Hx. cbv zeta in Hx.
  assert (H0 : (forall j, (j < NB_ANTENNES)%nat ->
                  pins (for_loop NB_ANTENNES setup_body w) !! relayPin j = Some LOW) /\
               (forall j, deadline (for_loop NB_ANTENNES setup_body w) j = 0)).
  { rewrite for_loop_unfold. fold (setup_from (seq 0 NB_ANTENNES) w). split.
    - intros j Hj. apply setup_from_pins. apply elem_of_antennas. exact Hj.
    - intros j. destruct (setup_from_rest (seq 0 NB_ANTENNES) w) as (_ & Hr & _).
      unfold deadline in *. rewrite Hr. apply Hd. }
  destruct H0 as [H0p H0d].
  generalize dependent (for_loop NB_ANTENNES setup_body w). intros s0 Hx H0p H0d.
  assert (H1p : forall j, (j < NB_ANTENNES)%nat ->
                  pins (delay 500 s0) !! relayPin j = Some LOW) by exact H0p.
  assert (H1d : forall j, deadline (delay 500 s0) j = 0) by exact H0d.
  generalize dependent (delay 500 s0). intros s1 Hx H1p H1d.
  assert (H2p : forall j, (j < NB_ANTENNES)%nat ->
                  pins (set_antenneSelectionnee (lireSelectionEEPROM s1) s1)
                    !! relayPin j = Some LOW) by exact H1p.
  assert (H2d : forall j,
                  deadline (set_antenneSelectionnee (lireSelectionEEPROM s1) s1) j = 0)
    by exact H1d.
  generalize dependent (set_antenneSelectionnee (lireSelectionEEPROM s1) s1).
  intros s2 Hx H2p H2d.
  apply elem_of_app in Hx as [Hx|Hx].
  - repeat (apply elem_of_cons in Hx as [->|Hx]); [..|inversion Hx]; auto.
  - destruct (_ && _); [|inversion Hx].
    apply (replay_points_low (Z.to_nat (u8 (antenneSelectionnee s2))) s2); assumption.
Qed.

Lemma started_idle p m e : display_idle (started p m e).
Proof. split; reflexivity. Qed.

Lemma started_deadlines p m e j : deadline (started p m e) j = 0.
Proof.
  unfold deadline. cbn [relayOffTime started]. rewrite nth_lookup.
  destruct (replicate NB_ANTENNES 0 !! j) eqn:E; [|reflexivity].
  apply lookup_replicate in E as [-> _]. reflexivity.
Qed.

(** C8.  Start-up, whatever the pins were before: [setup] first drives
    every relay pin LOW (its first loop), and in every state it goes through
    from there to its return every relay pin is LOW and every deadline is
    0: the relay of the restored antenna is never energized and no deadline
    is set.  If the EEPROM yields a valid index [k], the exclusivity and
    indicator steps are replayed: the selection is [k], the "off" commands
    of the seven others and the "on" command of [k] are sent and nothing
    else, so button [k] shows "on" and the others "off".  If it yields -1,
    the selection stays -1 and nothing at all is sent to the display. *)
Theorem startup_recovery (p : gmap Z bool) (m : gmap Z pin_mode) (e : Z -> Z) :
  let w0 := started p m e in
  let w := setup w0 in
  list.last (setup_points w0) = Some w /\
  (forall x i, x ∈ setup_points w0 -> (i < NB_ANTENNES)%nat ->
     pins x !! relayPin i = Some LOW /\ relay_on x i = false /\ deadline x i = 0) /\
  (forall i, (i < NB_ANTENNES)%nat ->
     pins w !! relayPin i = Some LOW /\ relay_on w i = false /\ deadline w i = 0) /\
  (forall k, (k < NB_ANTENNES)%nat -> lireSelectionEEPROM w0 = Z.of_nat k ->
     antenneSelectionnee w = Z.of_nat k /\
     indicator w k = Some true /\
     (forall i, (i < NB_ANTENNES)%nat -> i <> k -> indicator w i = Some false) /\
     tx w = off_cmds k (seq 0 NB_ANTENNES) ++ cmd k 1) /\
  (lireSelectionEEPROM w0 = -1 ->
     antenneSelectionnee w = -1 /\ tx w = [] /\ forall i, indicator w i = None).
Proof.
  intros w0 w. subst w.
  destruct (setup_loaded_fields w0) as (Hr & Ht & Ha).
  change (tx w0) with (@nil Z) in Ht.
  assert (Hpts : forall x i, x ∈ setup_points w0 -> (i < NB_ANTENNES)%nat ->
            pins x !! relayPin i = Some LOW /\ relay_on x i = false /\ deadline x i = 0).
  { intros x i Hx Hi.
    destruct (setup_points_low w0 x i (started_deadlines p m e) Hx Hi) as [H1 H2].
    split; [exact H1|]. split; [apply relay_on_false; exact H1 | exact H2]. }
  split; [apply setup_points_last|]. split; [exact Hpts|]. split; [|split].
  - intros i Hi. apply Hpts; [|exact Hi].
    apply list_elem_of_lookup. exists (pred (length (setup_points w0))).
    rewrite <- last_lookup. apply setup_points_last.
  - intros k Hk Hl. rewrite setup_eq, Hl.
    replace ((0 <=? Z.of_nat k) && (Z.of_nat k <? i8 (Z.of_nat NB_ANTENNES))) with true
      by (antenna_cases k Hk; reflexivity).
    replace (Z.to_nat (u8 (Z.of_nat k))) with k by (antenna_cases k Hk; reflexivity).
    assert (Hidle : display_idle (setup_loaded w0)).
    { apply (display_idle_same_tx w0); [exact Ht | apply started_idle]. }
    destruct (replay_display k _ Hk Hidle) as [Hon Hoff].
    split; [|split; [exact Hon|split; [exact Hoff|]]].
    + rewrite setBoutonOn_eq, exclusivite_eq. unfold set_tx. cbn [antenneSelectionnee].
      destruct (exclusivite_from_inputs k (seq 0 NB_ANTENNES) (setup_loaded w0))
        as (_ & E & _).
      rewrite E, Ha. exact Hl.
    + rewrite setBoutonOn_tx, exclusivite_eq, exclusivite_from_tx, Ht. reflexivity.
  - intros Hl. rewrite setup_eq, Hl. cbn [Z.leb Z.compare andb].
    rewrite Ha. split; [exact Hl|]. split; [exact Ht|].
    intros i. unfold indicator, display. rewrite Ht. reflexivity.
Qed.

Lemma startup_recovery_witness :
  pins (setup (started (<[22 := HIGH]> (<[25 := HIGH]> ∅)) ∅
                 (fun a => if a =? 0 then 0xA5 else 3))) !! relayPin 3 = Some LOW /\
  antenneSelectionnee (setup (started (<[22 := HIGH]> (<[25 := HIGH]> ∅)) ∅
                                (fun a => if a =? 0 then 0xA5 else 3))) = 3 /\
  indicator (setup (started (<[22 := HIGH]> (<[25 := HIGH]> ∅)) ∅
                      (fun a => if a =? 0 then 0xA5 else 3))) 3 = Some true /\
  pins (setup (started (<[22 := HIGH]> (<[25 := HIGH]> ∅)) ∅ (fun _ => 0xFF)))
    !! relayPin 0 = Some LOW /\
  antenneSelectionnee
    (setup (started (<[22 := HIGH]> (<[25 := HIGH]> ∅)) ∅ (fun _ => 0xFF))) = -1.
Proof.
  pose proof (startup_recovery (<[22 := HIGH]> (<[25 := HIGH]> ∅)) ∅
                (fun a => if a =? 0 then 0xA5 else 3)) as (_ & _ & Hlow & Hk & _).
  pose proof (startup_recovery (<[22 := HIGH]> (<[25 := HIGH]> ∅)) ∅
                (fun _ => 0xFF)) as (_ & _ & Hlow' & _ & Hnone).
  assert (H3 : (3 < NB_ANTENNES)%nat) by (unfold NB_ANTENNES; lia).
  assert (H0 : (0 < NB_ANTENNES)%nat) by (unfold NB_ANTENNES; lia).
  destruct (Hk 3%nat H3) as (Ha & Hon & _); [vm_compute; reflexivity|].
  destruct Hnone as (Hn & _); [vm_compute; reflexivity|].
  destruct (Hlow 3%nat H3) as [Hoff _].
  destruct (Hlow' 0%nat H0) as [Hoff' _].
  split; [exact Hoff|]. split; [exact Ha|]. split; [exact Hon|].
  split; [exact Hoff' | exact Hn].
Defined.

(** ** The timeout scan, antenna by antenna *)

Lemma gererTemporisations_visit w i :
  (i < NB_ANTENNES)%nat -> length (relayOffTime w) = NB_ANTENNES ->
  if expired (horloge w) w i
  then pins (gererTemporisations w) !! relayPin i = Some LOW /\
       relayOffTime (gererTemporisations w) !! i = Some 0
  else pins (gererTemporisations w) !! relayPin i = pins w !! relayPin i /\
       relayOffTime (gererTemporisations w) !! i = relayOffTime w !! i.
Proof.
  intros Hi Hlen. rewrite gererTemporisations_eq.
  apply gerer_from_visit.
  - apply NoDup_seq.
  - apply elem_of_antennas. exact Hi.
  - intros j. apply elem_of_antennas.
  - rewrite Hlen. exact Hi.
Qed.

(** The scan touches neither the selection nor the display. *)
Lemma gererTemporisations_latched w :
  antenneSelectionnee (gererTemporisations w) = antenneSelectionnee w /\
  tx (gererTemporisations w) = tx w /\
  eeprom (gererTemporisations w) = eeprom w /\
  horloge (gererTemporisations w) = horloge w /\
  length (relayOffTime (gererTemporisations w)) = length (relayOffTime w).
Proof.
  rewrite gererTemporisations_eq.
  destruct (gerer_from_inputs (horloge w) (seq 0 NB_ANTENNES) w)
    as ((_ & Ha & _ & _ & He & Hh & _) & Ht).
  rewrite gerer_from_length. auto.
Qed.

Lemma deadline_Some w i t : relayOffTime w !! i = Some t -> deadline w i = t.
Proof. unfold deadline. apply nth_lookup_Some. Qed.

Lemma lookup_deadline w i :
  (i < length (relayOffTime w))%nat -> relayOffTime w !! i = Some (deadline w i).
Proof.
  intros H. unfold deadline.
  destruct (nth_lookup_or_length (relayOffTime w) i 0) as [E|E]; [exact E|lia].
Qed.

Lemma pulsing_selectionner k w :
  (k < NB_ANTENNES)%nat -> wf w ->
  pulsing k (u32 (horloge w + 2000)) (selectionner k w).
Proof.
  intros Hk [Hlen _ _]. split.
  - apply selectionner_relay_on.
  - apply selectionner_deadline; assumption.
  - rewrite selectionner_length. assumption.
Qed.

(** While the guard of line 80 is false, a scan leaves the pulse alone. *)
Lemma pulsing_scan_keeps k d w :
  (k < NB_ANTENNES)%nat -> pulsing k d w -> d = 0 \/ horloge w < d ->
  pulsing k d (gererTemporisations w).
Proof.
  intros Hk [Hon Hd Hlen] Hguard.
  pose proof (gererTemporisations_visit w k Hk Hlen) as Hv.
  assert (He : expired (horloge w) w k = false).
  { unfold expired. rewrite (deadline_Some _ _ _ Hd).
    destruct Hguard as [->|Hlt]; [reflexivity|].
    apply andb_false_iff. right. apply Z.leb_gt. exact Hlt. }
  rewrite He in Hv. destruct Hv as [Hp Hr].
  destruct (gererTemporisations_latched w) as (_ & _ & _ & _ & Hl).
  split; [rewrite Hp | rewrite Hr | rewrite Hl]; assumption.
Qed.

(** Once the guard is true, a scan ends the pulse. *)
Lemma pulsing_scan_ends k d w :
  (k < NB_ANTENNES)%nat -> pulsing k d w -> d <> 0 -> d <= horloge w ->
  pins (gererTemporisations w) !! relayPin k = Some LOW /\
  relayOffTime (gererTemporisations w) !! k = Some 0.
Proof.
  intros Hk [Hon Hd Hlen] Hnz Hle.
  pose proof (gererTemporisations_visit w k Hk Hlen) as Hv.
  assert (He : expired (horloge w) w k = true).
  { unfold expired. rewrite (deadline_Some _ _ _ Hd).
    apply andb_true_iff. split; [apply negb_true_iff, Z.eqb_neq | apply Z.leb_le]; assumption. }
  rewrite He in Hv. exact Hv.
Qed.

Lemma pulsing_set_horloge k d t w : pulsing k d w -> pulsing k d (set_horloge t w).
Proof. intros [H1 H2 H3]. split; assumption. Qed.

Lemma pulsing_set_rx k d q w : pulsing k d w -> pulsing k d (set_rx q w).
Proof. intros [H1 H2 H3]. split; assumption. Qed.

(** ** The millisecond clock wraps *)

Lemma pulsing_sentinel_run k w trace :
  (k < NB_ANTENNES)%nat -> pulsing k 0 w -> Forall no_touch trace ->
  pulsing k 0 (run w trace).
Proof.
  intros Hk Hp Hq. revert w Hp.
  induction Hq as [|s trace Hs Hq IH]; intros w Hp; [exact Hp|].
  simpl. apply IH. destruct s as [ms|bytes| |]; simpl.
  - apply pulsing_set_horloge. exact Hp.
  - apply pulsing_set_rx. exact Hp.
  - destruct Hs.
  - apply pulsing_scan_keeps; auto.
Qed.

Lemma u32_wrap t : 2 ^ 32 - 2000 <= t < 2 ^ 32 -> u32 (t + 2000) = t + 2000 - 2 ^ 32.
Proof.
  intros H. unfold u32. change (2 ^ 32) with 4294967296 in *.
  symmetry. apply (Z.mod_unique (t + 2000) 4294967296 1); lia.
Qed.

Lemma u32_no_wrap t : 0 <= t -> t + 2000 < 2 ^ 32 -> u32 (t + 2000) = t + 2000.
Proof. intros H0 H. unfold u32. apply Z.mod_small. lia. Qed.

(** C9.  The deadline 0 is also the "no deadline" sentinel.  A selection
    made when [millis()] is 2^32 - 2000 stores the deadline 0: whatever time
    passes and however often the scan runs, its guard never fires, and the
    relay stays HIGH until another touch.  More generally the scan compares
    absolute clock values: a selection made in the last 2000 ms before the
    clock wraps stores the small deadline [t + 2000 - 2^32], and any scan
    before the wrap already finds [now >= deadline] and drops the relay,
    although fewer than 2000 ms have elapsed. *)
Theorem deadline_sentinel_collision (k : nat) (w : world) :
  (k < NB_ANTENNES)%nat -> wf w ->
  (horloge w = 2 ^ 32 - 2000 ->
   deadline (selectionner k w) k = 0 /\
   forall trace, Forall no_touch trace ->
     relay_on (run (selectionner k w) trace) k = true /\
     deadline (run (selectionner k w) trace) k = 0) /\
  (2 ^ 32 - 2000 < horloge w < 2 ^ 32 ->
   deadline (selectionner k w) k = horloge w + 2000 - 2 ^ 32 /\
   forall now, horloge w <= now < 2 ^ 32 ->
     relay_on (gererTemporisations (set_horloge now (selectionner k w))) k = false /\
     deadline (gererTemporisations (set_horloge now (selectionner k w))) k = 0).
Proof.
  intros Hk Hwf.
  pose proof (pulsing_selectionner k w Hk Hwf) as Hp.
  split.
  - intros Ht. rewrite u32_wrap in Hp by lia.
    replace (horloge w + 2000 - 2 ^ 32) with 0 in Hp by lia.
    split; [apply deadline_Some, Hp|].
    intros trace Hq.
    destruct (pulsing_sentinel_run k _ trace Hk Hp Hq) as [Hon Hd _].
    split; [apply relay_on_true, Hon | apply deadline_Some, Hd].
  - intros Ht. rewrite u32_wrap in Hp by lia.
    split; [apply deadline_Some, Hp|].
    intros now Hnow.
    destruct (pulsing_scan_ends k _ (set_horloge now (selectionner k w)) Hk
                (pulsing_set_horloge _ _ now _ Hp)) as [Hoff Hd].
    + lia.
    + change (horloge (set_horloge now (selectionner k w))) with now.
      change (2 ^ 32) with 4294967296 in *. lia.
    + split; [apply relay_on_false, Hoff | apply deadline_Some, Hd].
Qed.

Lemma deadline_sentinel_collision_witness :
  relay_on (run (selectionner 0 (set_horloge (2 ^ 32 - 2000) w_boot))
                [Tick 5000; Scan; Tick 100000; Arrive [1]; Scan]) 0 = true /\
  relay_on (gererTemporisations
              (set_horloge (2 ^ 32 - 999)
                 (selectionner 0 (set_horloge (2 ^ 32 - 1000) w_boot)))) 0 = false.
Proof.
  assert (H0 : (0 < NB_ANTENNES)%nat) by (unfold NB_ANTENNES; lia).
  split.
  - destruct (deadline_sentinel_collision 0 (set_horloge (2 ^ 32 - 2000) w_boot) H0)
      as [H _].
    + wf_by_computation.
    + destruct H as [_ H]; [reflexivity|].
      apply H. repeat constructor.
  - destruct (deadline_sentinel_collision 0 (set_horloge (2 ^ 32 - 1000) w_boot) H0)
      as [_ H].
    + wf_by_computation.
    + destruct H as [_ H]; [vm_compute; split; reflexivity|].
      apply H. vm_compute. split; [discriminate | reflexivity].
Defined.

(** ** The pulse *)

(** A selection is latched: the scans change neither the selection nor
    what the display shows. *)
Lemma scans_latched times w :
  antenneSelectionnee (scans times w) = antenneSelectionnee w /\
  tx (scans times w) = tx w.
Proof.
  revert w. induction times as [|t times IH]; intros w; [auto|].
  simpl. destruct (IH (gererTemporisations (set_horloge t w))) as [-> ->].
  destruct (gererTemporisations_latched (set_horloge t w)) as (Ha & Ht & _).
  rewrite Ha, Ht. auto.
Qed.

Lemma scans_pulsing k d times w :
  (k < NB_ANTENNES)%nat -> pulsing k d w -> Forall (fun t => t < d) times ->
  pulsing k d (scans times w).
Proof.
  intros Hk Hp Hts. revert w Hp.
  induction Hts as [|t times Ht Hts IH]; intros w Hp; [exact Hp|].
  simpl. apply IH. apply pulsing_scan_keeps; [exact Hk| |right; exact Ht].
  apply pulsing_set_horloge. exact Hp.
Qed.

(** X17.  As long as [millis() + 2000] does not wrap, the pulse lasts as the
    comments of the sketch say: every scan before the deadline leaves the
    relay HIGH, the first scan at or after it drops the relay and clears the
    deadline, and the button stays "on" and the selection stays [k]. *)
Lemma pulse_without_wrap (k : nat) (w : world) (times : list Z) (t_end : Z) :
  (k < NB_ANTENNES)%nat -> wf w -> display_idle w ->
  0 <= horloge w -> horloge w + 2000 < 2 ^ 32 ->
  Forall (fun t => t < horloge w + 2000) times ->
  horloge w + 2000 <= t_end ->
  let w1 := scans times (selectionner k w) in
  let w2 := gererTemporisations (set_horloge t_end w1) in
  (relay_on w1 k = true /\ indicator w1 k = Some true /\
   antenneSelectionnee w1 = Z.of_nat k) /\
  (relay_on w2 k = false /\ deadline w2 k = 0 /\ indicator w2 k = Some true /\
   antenneSelectionnee w2 = Z.of_nat k).
Proof.
  intros Hk Hwf Hidle H0 Hnw Hts Hend w1 w2.
  pose proof (pulsing_selectionner k w Hk Hwf) as Hp.
  rewrite u32_no_wrap in Hp by assumption.
  pose proof (scans_pulsing k _ times _ Hk Hp Hts) as Hp1. fold w1 in Hp1.
  destruct (scans_latched times (selectionner k w)) as [Ha1 Ht1]. fold w1 in Ha1, Ht1.
  destruct (selectionner_display k w Hk Hidle) as (_ & Hon & _).
  assert (Hi1 : indicator w1 k = Some true).
  { rewrite (indicator_same_tx _ _ _ Ht1). exact Hon. }
  assert (Hs1 : antenneSelectionnee w1 = Z.of_nat k).
  { rewrite Ha1. apply selectionner_antenne. exact Hk. }
  destruct (pulsing_scan_ends k _ (set_horloge t_end w1) Hk
              (pulsing_set_horloge _ _ t_end _ Hp1)) as [Hoff Hd]; [lia|exact Hend|].
  destruct (gererTemporisations_latched (set_horloge t_end w1)) as (Ha2 & Ht2 & _).
  fold w2 in Hoff, Hd, Ha2, Ht2.
  clearbody w2 w1. repeat split.
  - apply relay_on_true, Hp1.
  - exact Hi1.
  - exact Hs1.
  - apply relay_on_false, Hoff.
  - apply deadline_Some, Hd.
  - rewrite (indicator_same_tx _ _ _ Ht2). exact Hi1.
  - rewrite Ha2. exact Hs1.
Qed.

(** C6.  Timeout firing fails where the clock wraps.  A touch on button 0
    at [millis() = 2^32 - 2000] stores the deadline 0, which the scan reads
    as "no deadline": at time T + D (the clock is back at 0) and at every
    later scan the relay is still HIGH.  A touch at [2^32 - 1000] stores the
    deadline 1000, and a scan one millisecond later already drops the
    relay, inside [T, T + D). *)
Theorem pulse_fails_at_clock_wrap :
  let stuck := recevoirEvenementsNextion
                 (set_rx (trame 0 2 1) (set_horloge (2 ^ 32 - 2000) w_boot)) in
  let short := recevoirEvenementsNextion
                 (set_rx (trame 0 2 1) (set_horloge (2 ^ 32 - 1000) w_boot)) in
  (relay_on stuck 0 = true /\ deadline stuck 0 = 0 /\
   relay_on (gererTemporisations (set_horloge 0 stuck)) 0 = true /\
   relay_on (run stuck [Tick 2000; Scan; Tick 60000; Scan; Tick 3600000; Scan]) 0 = true) /\
  (relay_on short 0 = true /\ deadline short 0 = 1000 /\
   relay_on (run short [Tick 1; Scan]) 0 = false).
Proof. vm_compute. repeat split. Qed.

(** ** Touching the button that is already selected *)

Lemma selection_points_last k w :
  list.last (selection_points k w) = Some (selectionner k w).
Proof.
  unfold selection_points, selection_tail. cbv zeta.
  rewrite last_app. reflexivity.
Qed.

Lemma cmd_not_nil i v : cmd i v <> [].
Proof. unfold cmd. simpl. discriminate. Qed.

Lemma selection_tail_keep k w s0 x :
  pins s0 !! relayPin k = pins w !! relayPin k ->
  indicator (setBoutonOn k s0) k = Some true ->
  x ∈ selection_tail k s0 ->
  (relay_on w k = true -> relay_on x k = true) /\
  (indicator w k = Some true -> indicator x k = Some true).
Proof.
  intros Hp Hon Hx. unfold selection_tail in Hx. cbv zeta in Hx.
  destruct (sauvegarderSelection_eq k
              (set_antenneSelectionnee (i8 (Z.of_nat k)) (setBoutonOn k s0)))
    as (e' & He & _).
  rewrite He in Hx. rewrite setBoutonOn_eq in Hx, Hon.
  assert (Hrel : forall y, pins y = pins s0 ->
                           relay_on w k = true -> relay_on y k = true).
  { intros y Hy H. apply relay_on_true. rewrite Hy, Hp. apply relay_on_true. exact H. }
  assert (Hind : forall y, tx y = tx s0 ++ cmd k 1 -> indicator y k = Some true).
  { intros y Hy. rewrite <- Hon. apply indicator_same_tx. exact Hy. }
  assert (Hhigh : forall y, pins y !! relayPin k = Some HIGH -> relay_on y k = true).
  { intros y Hy. apply relay_on_true. exact Hy. }
  repeat (apply elem_of_cons in Hx as [->|Hx]); [..|inversion Hx].
  - split; [apply Hrel; reflexivity | intros _; apply Hind; reflexivity].
  - split; [apply Hrel; reflexivity | intros _; apply Hind; reflexivity].
  - split; [apply Hrel; reflexivity | intros _; apply Hind; reflexivity].
  - split; intros _; [apply Hhigh, lookup_insert_eq | apply Hind; reflexivity].
  - split; intros _; [apply Hhigh, lookup_insert_eq | apply Hind; reflexivity].
Qed.

(** Through the whole selection of [k], relay [k] is never written LOW and
    button [k] is never sent "off". *)
Lemma selection_points_keep k w x :
  (k < NB_ANTENNES)%nat -> display_idle w -> x ∈ selection_points k w ->
  (relay_on w k = true -> relay_on x k = true) /\
  (indicator w k = Some true -> indicator x k = Some true).
Proof.
  intros Hk Hidle Hx. unfold selection_points in Hx.
  assert (Hloop : forall n, (n <= NB_ANTENNES)%nat ->
            pins (exclusivite_from k (seq 0 n) w) !! relayPin k = pins w !! relayPin k /\
            indicator (exclusivite_from k (seq 0 n) w) k = indicator w k).
  { intros n Hn.
    assert (Hl : forall i, i ∈ seq 0 n -> (i < NB_ANTENNES)%nat).
    { intros i Hi. apply elem_of_seq in Hi. lia. }
    split.
    - apply exclusivite_from_pins_actif; assumption.
    - destruct (exclusivite_from_display k (seq 0 n) w Hidle Hl) as (_ & _ & Hsame).
      apply Hsame. right. reflexivity. }
  apply elem_of_app in Hx as [Hx|Hx].
  - apply list_elem_of_fmap in Hx as (n & -> & Hn).
    apply elem_of_seq in Hn.
    destruct (Hloop n) as [Hp Hi]; [lia|].
    rewrite for_loop_unfold. fold (exclusivite_from k (seq 0 n) w).
    split.
    + intros H. apply relay_on_true. rewrite Hp. apply relay_on_true. exact H.
    + intros H. rewrite Hi. exact H.
  - revert Hx. apply selection_tail_keep.
    + rewrite exclusivite_eq. apply Hloop. lia.
    + apply replay_display; assumption.
Qed.

(** C10.  A touch on the button of the antenna that is already selected
    runs the whole selection again: relay [k] is driven HIGH, its deadline
    is set to the current time plus 2000 ms (modulo 2^32), the "off"
    commands of the seven others and the "on" command of [k] are sent, and
    the same index is saved again; the state has changed, so the event is
    not ignored.  At no point of the event is relay [k] driven LOW or
    button [k] set "off". *)
Theorem reselect_same_antenna (k : nat) (w : world) :
  (k < NB_ANTENNES)%nat -> wf w -> display_idle w ->
  antenneSelectionnee w = Z.of_nat k ->
  let w' := traiterEvenement 0 (FIRST_BTN_ID + Z.of_nat k) w in
  list.last (selection_points k w) = Some w' /\
  relay_on w' k = true /\
  deadline w' k = u32 (horloge w + 2000) /\
  tx w' = tx w ++ off_cmds k (seq 0 NB_ANTENNES) ++ cmd k 1 /\
  indicator w' k = Some true /\
  antenneSelectionnee w' = Z.of_nat k /\
  EEPROM_read EEPROM_MAGIC_ADDR w' = EEPROM_MAGIC_VALUE /\
  EEPROM_read EEPROM_SELECTED_ADDR w' = Z.of_nat k /\
  w' <> w /\
  (forall x, x ∈ selection_points k w ->
     (relay_on w k = true -> relay_on x k = true) /\
     (indicator w k = Some true -> indicator x k = Some true)).
Proof.
  intros Hk Hwf Hidle Hsel w'.
  assert (E : w' = selectionner k w).
  { unfold w'. rewrite traiterEvenement_accepted.
    apply Nat.ltb_lt in Hk. rewrite Hk. reflexivity. }
  clearbody w'. subst w'.
  destruct (selectionner_display k w Hk Hidle) as (_ & Hon & _).
  destruct (selectionner_eeprom k w) as (Hm & Hi & _).
  pose proof (pulsing_selectionner k w Hk Hwf) as [Hr Hd _].
  split; [apply selection_points_last|].
  split; [apply relay_on_true, Hr|].
  split; [apply deadline_Some, Hd|].
  split; [apply selectionner_tx|].
  split; [exact Hon|].
  split; [apply selectionner_antenne; exact Hk|].
  split; [exact Hm|].
  split; [exact Hi|].
  split.
  - intros Heq. apply (f_equal tx) in Heq. rewrite selectionner_tx in Heq.
    apply (f_equal length) in Heq. rewrite !length_app in Heq.
    pose proof (cmd_not_nil k 1) as Hne.
    destruct (cmd k 1); [congruence | simpl in Heq; lia].
  - intros x Hx. apply selection_points_keep; assumption.
Qed.

Lemma reselect_same_antenna_witness :
  relay_on (traiterEvenement 0 4
              (recevoirEvenementsNextion (set_rx (trame 0 4 1) w_boot))) 2 = true /\
  deadline (traiterEvenement 0 4
              (recevoirEvenementsNextion (set_rx (trame 0 4 1) w_boot))) 2 = 2500.
Proof.
  destruct (reselect_same_antenna 2
              (recevoirEvenementsNextion (set_rx (trame 0 4 1) w_boot)))
    as (_ & Hon & Hd & _).
  - unfold NB_ANTENNES. lia.
  - wf_by_computation.
  - split; vm_compute; reflexivity.
  - vm_compute. reflexivity.
  - split; [exact Hon | exact Hd].
Defined.

(* ================================================================== *)
(** * Further properties of the sketch *)

(** ** The receive queue is only a conveyor *)

Lemma exclusivite_body_set_rx k i q w :
  exclusivite_body k i (set_rx q w) = set_rx q (exclusivite_body k i w).
Proof. unfold exclusivite_body. destruct (negb _); reflexivity. Qed.

Lemma exclusivite_from_set_rx k l q w :
  exclusivite_from k l (set_rx q w) = set_rx q (exclusivite_from k l w).
Proof.
  induction l as [|i l IH] using rev_ind; [reflexivity|].
  rewrite !exclusivite_from_snoc, IH. apply exclusivite_body_set_rx.
Qed.

Lemma EEPROM_update_set_rx a v q w :
  EEPROM_update a v (set_rx q w) = set_rx q (EEPROM_update a v w).
Proof.
  unfold EEPROM_update, EEPROM_read. cbn [eeprom set_rx].
  destruct (eeprom w a =? v); reflexivity.
Qed.

Lemma selectionner_set_rx k q w :
  selectionner k (set_rx q w) = set_rx q (selectionner k w).
Proof.
  unfold selectionner, sauvegarderSelection.
  rewrite !exclusivite_eq, exclusivite_from_set_rx.
  generalize (exclusivite_from k (seq 0 NB_ANTENNES) w). intros x.
  change (setBoutonOn k (set_rx q x)) with (set_rx q (setBoutonOn k x)).
  generalize (setBoutonOn k x). intros y.
  change (set_antenneSelectionnee (i8 (Z.of_nat k)) (set_rx q y))
    with (set_rx q (set_antenneSelectionnee (i8 (Z.of_nat k)) y)).
  rewrite !EEPROM_update_set_rx.
  generalize (EEPROM_update EEPROM_SELECTED_ADDR (Z.of_nat k)
                (EEPROM_update EEPROM_MAGIC_ADDR EEPROM_MAGIC_VALUE
                   (set_antenneSelectionnee (i8 (Z.of_nat k)) y))).
  intros z. reflexivity.
Qed.

Lemma traiterEvenement_set_rx page compId q w :
  traiterEvenement page compId (set_rx q w) =
  set_rx q (traiterEvenement page compId w).
Proof.
  unfold traiterEvenement.
  destruct (page =? 0); [|reflexivity].
  destruct (_ && _); [|reflexivity].
  apply selectionner_set_rx.
Qed.

Lemma recevoirOctet_set_rx c q w :
  recevoirOctet c (set_rx q w) = set_rx q (recevoirOctet c w).
Proof.
  unfold recevoirOctet. cbn [pos set_rx].
  destruct ((pos w =? 0) && negb (c =? 101)); [reflexivity|].
  cbv zeta beta.
  change (set_pos (u8 (pos w + 1)) (set_buffer <[Z.to_nat (pos w):=c]> (set_rx q w)))
    with (set_rx q (buffered c w)).
  change (set_pos (u8 (pos w + 1)) (set_buffer <[Z.to_nat (pos w):=c]> w))
    with (buffered c w).
  change (pos (set_rx q (buffered c w))) with (pos (buffered c w)).
  change (buffer (set_rx q (buffered c w))) with (buffer (buffered c w)).
  generalize (buffered c w). intros x.
  destruct (7 <=? pos x); [|reflexivity].
  destruct (trameValide (buffer x)); [|reflexivity].
  rewrite traiterEvenement_set_rx.
  generalize (traiterEvenement (nth 1 (buffer x) 0) (nth 2 (buffer x) 0) x).
  intros y. reflexivity.
Qed.

Lemma feed_set_rx l q w : feed l (set_rx q w) = set_rx q (feed l w).
Proof.
  revert w. induction l as [|c l IH]; intros w; [reflexivity|].
  unfold feed in *. cbn [foldl]. rewrite recevoirOctet_set_rx. apply IH.
Qed.

Lemma feed_app a b w : feed (a ++ b) w = feed b (feed a w).
Proof. unfold feed. apply foldl_app. Qed.

Lemma set_rx_set_rx q q' w : set_rx q (set_rx q' w) = set_rx q w.
Proof. reflexivity. Qed.

(** The [while] loop is the iteration of its body, and the queue ends empty. *)
Lemma recevoirBoucle_feed l w : recevoirBoucle l w = set_rx [] (feed l w).
Proof.
  revert w. induction l as [|c l IH]; intros w; [reflexivity|].
  cbn [recevoirBoucle]. rewrite IH, recevoirOctet_set_rx, feed_set_rx.
  rewrite set_rx_set_rx. reflexivity.
Qed.

Lemma recevoirEvenementsNextion_feed w :
  recevoirEvenementsNextion w = set_rx [] (feed (rx w) w).
Proof. unfold recevoirEvenementsNextion. apply recevoirBoucle_feed. Qed.

(** X1.  The decoder does not depend on how the byte stream is cut into
    calls: with the same clock, receiving [a], calling
    [recevoirEvenementsNextion], receiving [b] and calling it again leaves
    the state that one call leaves when [a ++ b] arrived at once. *)
Theorem chunking_independent (a b : list Z) (w : world) :
  run w [Arrive a; Receive; Arrive b; Receive] = run w [Arrive (a ++ b); Receive].
Proof.
  unfold run. cbn [foldl react].
  rewrite !recevoirEvenementsNextion_feed. cbn [rx set_rx].
  rewrite !feed_set_rx, !set_rx_set_rx. cbn [app].
  rewrite !feed_app. reflexivity.
Qed.

(** ** Noise and malformed windows *)

Lemma recevoirOctet_idle c w : pos w = 0 -> c <> 0x65 -> recevoirOctet c w = w.
Proof.
  intros Hp Hc. unfold recevoirOctet. rewrite Hp.
  apply Z.eqb_neq in Hc. rewrite Hc. reflexivity.
Qed.

Lemma touchEvent_idle c w : pos w = 0 -> c <> 0x65 -> touchEvent c w = None.
Proof.
  intros Hp Hc. unfold touchEvent. rewrite Hp.
  apply Z.eqb_neq in Hc. rewrite Hc. reflexivity.
Qed.

Lemma feed_noise l w :
  pos w = 0 -> Forall (fun c => u8 c <> 0x65) l -> feed l w = w.
Proof.
  intros Hp Hl. induction Hl as [|c l Hc Hl IH]; [reflexivity|].
  unfold feed in *. cbn [foldl]. rewrite recevoirOctet_idle by assumption. exact IH.
Qed.

(** X2.  Noise is dropped without a trace: at write position 0, bytes none
    of which is the start byte 0x65 produce no touch event and change
    nothing; the call only empties the queue. *)
Theorem noise_discarded (l : list Z) (w : world) :
  pos w = 0 -> Forall (fun c => u8 c <> 0x65) l ->
  touchEvents l w = [] /\
  recevoirEvenementsNextion (set_rx l w) = set_rx [] w.
Proof.
  intros Hp Hl. split.
  - induction Hl as [|c l Hc Hl IH]; [reflexivity|].
    cbn [touchEvents]. rewrite touchEvent_idle, recevoirOctet_idle by assumption.
    exact IH.
  - rewrite recevoirEvenementsNextion_feed. cbn [rx set_rx].
    rewrite feed_set_rx, set_rx_set_rx, feed_noise by assumption. reflexivity.
Qed.

Lemma noise_discarded_witness :
  recevoirEvenementsNextion (set_rx [0x00; 0xFF; 0x66; 0x1A; 0xFF] w_boot) =
  set_rx [] w_boot.
Proof.
  apply (noise_discarded [0x00; 0xFF; 0x66; 0x1A; 0xFF] w_boot).
  - reflexivity.
  - repeat constructor; vm_compute; discriminate.
Defined.

(** Stores the bytes written out in the goal, up to a full window. *)
Ltac decode_window :=
  cbn [recevoirBoucle touchEvents foldl app];
  rewrite ?u8_byte by (unfold is_byte in *; lia);
  repeat first
    [ rewrite set_rx_decoder_at
    | rewrite touchEvent_store by lia
    | rewrite recevoirOctet_store by (first [lia | left; lia | right; reflexivity])
    | match goal with
      | |- context [decoder_at (?a + ?b)] =>
          let v := eval vm_compute in (a + b) in change (a + b) with v
      | |- context [decoder_at ?p (@insert nat Z (list Z) ?I ?i ?c ?b)] =>
          let v := eval vm_compute in (@insert nat Z (list Z) I i c b) in
          change (@insert nat Z (list Z) I i c b) with v
      end ].

Lemma trameValide_bad b0 b1 b2 b3 b4 b5 b6 :
  b4 <> 0xFF \/ b5 <> 0xFF \/ b6 <> 0xFF ->
  trameValide [b0; b1; b2; b3; b4; b5; b6] = false.
Proof.
  intros H. unfold trameValide. cbn [nth].
  destruct H as [H|[H|H]]; apply Z.eqb_neq in H; rewrite H;
    rewrite ?andb_false_r; reflexivity.
Qed.

Lemma feed_window_bad b1 b2 b3 b4 b5 b6 w :
  length (buffer w) = 7%nat -> pos w = 0 ->
  is_byte b1 -> is_byte b2 -> is_byte b3 ->
  is_byte b4 -> is_byte b5 -> is_byte b6 ->
  b4 <> 0xFF \/ b5 <> 0xFF \/ b6 <> 0xFF ->
  feed [0x65; b1; b2; b3; b4; b5; b6] w =
  decoder_at 0 [0x65; b1; b2; b3; b4; b5; b6] (rx w) w.
Proof.
  intros Hlen Hpos H1 H2 H3 H4 H5 H6 Hbad.
  pose proof (trameValide_bad 101 b1 b2 b3 b4 b5 b6 Hbad) as Hv.
  rewrite (decoder_at_self w) at 1. rewrite Hpos.
  destruct (buffer w) as [|a0 [|a1 [|a2 [|a3 [|a4 [|a5 [|a6 [|]]]]]]]];
    try discriminate.
  unfold feed. decode_window. rewrite recevoirOctet_full.
  change (<[6%nat:=b6]> [101; b1; b2; b3; b4; b5; a6])
    with [101; b1; b2; b3; b4; b5; b6].
  rewrite Hv. reflexivity.
Qed.

(** X3.  A window with a bad terminator is dropped whole: seven bytes that
    start with 0x65 but do not end with three 0xFF produce no touch event;
    the call leaves them in the window, resets the write position to 0 and
    changes nothing else. *)
Theorem malformed_window_dropped (b1 b2 b3 b4 b5 b6 : Z) (w : world) :
  wf w -> pos w = 0 ->
  is_byte b1 -> is_byte b2 -> is_byte b3 ->
  is_byte b4 -> is_byte b5 -> is_byte b6 ->
  b4 <> 0xFF \/ b5 <> 0xFF \/ b6 <> 0xFF ->
  touchEvents [0x65; b1; b2; b3; b4; b5; b6] w = [] /\
  recevoirEvenementsNextion (set_rx [0x65; b1; b2; b3; b4; b5; b6] w) =
  decoder_at 0 [0x65; b1; b2; b3; b4; b5; b6] [] w.
Proof.
  intros [_ Hlen _] Hpos H1 H2 H3 H4 H5 H6 Hbad. split.
  - pose proof (trameValide_bad 101 b1 b2 b3 b4 b5 b6 Hbad) as Hv.
    rewrite (decoder_at_self w). rewrite Hpos.
    destruct (buffer w) as [|a0 [|a1 [|a2 [|a3 [|a4 [|a5 [|a6 [|]]]]]]]];
      try discriminate.
    decode_window. rewrite touchEvent_full.
    change (<[6%nat:=b6]> [101; b1; b2; b3; b4; b5; a6])
      with [101; b1; b2; b3; b4; b5; b6].
    rewrite Hv. reflexivity.
  - rewrite recevoirEvenementsNextion_feed. cbn [rx set_rx].
    rewrite feed_set_rx, set_rx_set_rx, feed_window_bad by assumption.
    reflexivity.
Qed.

Lemma malformed_window_dropped_witness :
  touchEvents [0x65; 0x00; 0x02; 0x01; 0xFF; 0xFF; 0x00] w_boot = [] /\
  recevoirEvenementsNextion
    (set_rx [0x65; 0x00; 0x02; 0x01; 0xFF; 0xFF; 0x00] w_boot) =
  decoder_at 0 [0x65; 0x00; 0x02; 0x01; 0xFF; 0xFF; 0x00] [] w_boot.
Proof.
  apply (malformed_window_dropped 0x00 0x02 0x01 0xFF 0xFF 0x00 w_boot).
  - wf_by_computation.
  - reflexivity.
  - unfold is_byte. lia.
  - unfold is_byte. lia.
  - unfold is_byte. lia.
  - unfold is_byte. lia.
  - unfold is_byte. lia.
  - unfold is_byte. lia.
  - right. right. discriminate.
Defined.

(** ** Frames, one after the other *)

Lemma feed_trame page compId state w :
  length (buffer w) = 7%nat -> pos w = 0 ->
  is_byte page -> is_byte compId -> is_byte state ->
  feed (trame page compId state) w =
  set_pos 0 (traiterEvenement page compId
               (set_pos 7 (set_buffer (fun _ => trame page compId state) w))).
Proof.
  intros Hlen Hpos Hp Hc Hs.
  rewrite (decoder_at_self w) at 1. rewrite Hpos.
  destruct (buffer w) as [|b0 [|b1 [|b2 [|b3 [|b4 [|b5 [|b6 [|]]]]]]]];
    try discriminate.
  unfold feed, trame. cbn [foldl]. decode. reflexivity.
Qed.

Lemma touchEvents_app a b w :
  touchEvents (a ++ b) w = touchEvents a w ++ touchEvents b (feed a w).
Proof.
  revert w. induction a as [|c a IH]; intros w; [reflexivity|].
  cbn [app touchEvents]. rewrite IH, <- app_assoc. reflexivity.
Qed.

Lemma filter_none (P : nat -> Prop) `{forall x, Decision (P x)} (l : list nat) :
  (forall i, i ∈ l -> ~ P i) -> filter P l = [].
Proof.
  induction l as [|a l IH]; intros Hl; [reflexivity|].
  rewrite filter_cons_False by (apply Hl; apply elem_of_cons; auto).
  apply IH. intros i Hi. apply Hl. apply elem_of_cons. auto.
Qed.

Lemma filter_only (P : nat -> Prop) `{forall x, Decision (P x)} (l : list nat) k :
  NoDup l -> k ∈ l -> (forall i, i ∈ l -> (P i <-> i = k)) -> filter P l = [k].
Proof.
  induction l as [|a l IH]; intros Hnd Hk HP; [inversion Hk|].
  apply list.NoDup_cons in Hnd as [Ha Hnd].
  destruct (decide (a = k)) as [->|Hne].
  - rewrite filter_cons_True by (apply HP; [apply elem_of_cons; auto | reflexivity]).
    f_equal. apply filter_none. intros i Hi Hpi.
    apply HP in Hpi; [|apply elem_of_cons; auto]. congruence.
  - rewrite filter_cons_False.
    + apply IH; [assumption| |].
      * apply elem_of_cons in Hk as [Hk|Hk]; [congruence|assumption].
      * intros i Hi. apply HP. apply elem_of_cons. auto.
    + intros Hpa. apply Hne. apply HP; [apply elem_of_cons; auto | assumption].
Qed.

(** After a selection the selected relay is the one relay that is on. *)
Lemma energized_selectionner k w :
  (k < NB_ANTENNES)%nat -> energized (selectionner k w) = [k].
Proof.
  intros Hk. unfold energized.
  apply filter_only; [apply NoDup_seq | apply elem_of_antennas; exact Hk |].
  intros i Hi. apply elem_of_antennas in Hi. split.
  - intros Hon. destruct (decide (i = k)) as [->|Hne]; [reflexivity|].
    rewrite relay_on_false in Hon by (apply selectionner_relay_off; assumption).
    discriminate.
  - intros ->. apply relay_on_true, selectionner_relay_on.
Qed.

Lemma energized_same_pins w w' : pins w' = pins w -> energized w' = energized w.
Proof. unfold energized, relay_on. intros ->. reflexivity. Qed.

Lemma frames_snoc ks k s :
  frames (ks ++ [(k, s)]) = frames ks ++ trame 0 (FIRST_BTN_ID + Z.of_nat k) s.
Proof. unfold frames. rewrite flat_map_app. cbn [flat_map]. rewrite app_nil_r. reflexivity. Qed.

Lemma button_id_byte k : (k < NB_ANTENNES)%nat -> is_byte (FIRST_BTN_ID + Z.of_nat k).
Proof. unfold is_byte, FIRST_BTN_ID, NB_ANTENNES. lia. Qed.

(** A frame for button [k] fed at write position 0 selects antenna [k], in
    a state [x] that differs from [w] by the decoder's window only. *)
Lemma feed_button k s w :
  wf w -> pos w = 0 -> (k < NB_ANTENNES)%nat -> is_byte s ->
  exists x,
    feed (trame 0 (FIRST_BTN_ID + Z.of_nat k) s) w = set_pos 0 (selectionner k x) /\
    wf (set_pos 0 x) /\
    pins x = pins w /\ relayOffTime x = relayOffTime w /\
    antenneSelectionnee x = antenneSelectionnee w /\ eeprom x = eeprom w /\
    horloge x = horloge w /\ tx x = tx w /\ rx x = rx w.
Proof.
  intros [Hr Hlen _] Hpos Hk Hs.
  exists (set_pos 7 (set_buffer (fun _ => trame 0 (FIRST_BTN_ID + Z.of_nat k) s) w)).
  split.
  - rewrite feed_trame; try assumption.
    + rewrite traiterEvenement_accepted.
      apply Nat.ltb_lt in Hk. rewrite Hk. reflexivity.
    + unfold is_byte. lia.
    + apply button_id_byte. exact Hk.
  - split; [|repeat split].
    apply wf_set_pos; [lia | exact Hr | reflexivity].
Qed.

Lemma wf_after_selection k x :
  (k < NB_ANTENNES)%nat -> wf (set_pos 0 x) -> wf (set_pos 0 (selectionner k x)).
Proof.
  intros Hk [Hr Hb _].
  destruct (selectionner_decoder k x) as (_ & Hbuf & _).
  apply wf_set_pos; [lia | |].
  - rewrite selectionner_length. exact Hr.
  - rewrite Hbuf. exact Hb.
Qed.

Lemma antenne_set_pos v y : antenneSelectionnee (set_pos v y) = antenneSelectionnee y.
Proof. reflexivity. Qed.

Lemma energized_set_pos v y : energized (set_pos v y) = energized y.
Proof. reflexivity. Qed.

Lemma pos_set_pos v y : pos (set_pos v y) = v.
Proof. reflexivity. Qed.

Lemma wf_feed_button k s w :
  wf w -> pos w = 0 -> (k < NB_ANTENNES)%nat -> is_byte s ->
  wf (feed (trame 0 (FIRST_BTN_ID + Z.of_nat k) s) w) /\
  pos (feed (trame 0 (FIRST_BTN_ID + Z.of_nat k) s) w) = 0 /\
  antenneSelectionnee (feed (trame 0 (FIRST_BTN_ID + Z.of_nat k) s) w) = Z.of_nat k /\
  energized (feed (trame 0 (FIRST_BTN_ID + Z.of_nat k) s) w) = [k].
Proof.
  intros Hwf Hpos Hk Hs.
  destruct (feed_button k s w Hwf Hpos Hk Hs) as (x & -> & Hx & _).
  split; [apply wf_after_selection; assumption|].
  split; [apply pos_set_pos|].
  split.
  - rewrite antenne_set_pos. apply selectionner_antenne. exact Hk.
  - rewrite energized_set_pos. apply energized_selectionner. exact Hk.
Qed.

Lemma feed_frames ks w :
  wf w -> pos w = 0 -> Forall button ks ->
  wf (feed (frames ks) w) /\ pos (feed (frames ks) w) = 0 /\
  touchEvents (frames ks) w = (fun b => (0, FIRST_BTN_ID + Z.of_nat b.1)) <$> ks /\
  forall k s, list.last ks = Some (k, s) ->
    antenneSelectionnee (feed (frames ks) w) = Z.of_nat k /\
    energized (feed (frames ks) w) = [k].
Proof.
  intros Hwf Hpos. induction ks as [|b ks IH] using rev_ind; intros Hks;
    [|destruct b as [k s]].
  - split; [exact Hwf|]. split; [exact Hpos|]. split; [reflexivity|].
    intros k s Hl. discriminate.
  - apply Forall_app in Hks as [Hks Hb].
    apply Forall_inv in Hb. unfold button in Hb. cbn [fst snd] in Hb.
    destruct Hb as [Hk Hs].
    destruct (IH Hks) as (Hwf' & Hpos' & Hev & _).
    rewrite frames_snoc, feed_app, touchEvents_app.
    destruct (wf_feed_button k s _ Hwf' Hpos' Hk Hs) as (H1 & H2 & H3 & H4).
    split; [exact H1|]. split; [exact H2|]. split.
    + rewrite Hev, fmap_app. f_equal.
      destruct Hwf' as [_ Hlen _].
      apply touchEvents_trame; try assumption.
      * unfold is_byte. lia.
      * apply button_id_byte. exact Hk.
    + intros k' s' Hl. rewrite last_snoc in Hl. injection Hl as <- <-.
      split; assumption.
Qed.

(** X4.  Frames queued back to back are all decoded, in order: from write
    position 0, the frames of any sequence of buttons (whatever their state
    bytes, press or release) yield one touch event each; the call ends at
    write position 0 with the last button selected and its relay the only
    one on. *)
Theorem frames_all_decoded (ks : list (nat * Z)) (w : world) :
  wf w -> pos w = 0 -> Forall button ks ->
  touchEvents (frames ks) w = (fun b => (0, FIRST_BTN_ID + Z.of_nat b.1)) <$> ks /\
  pos (recevoirEvenementsNextion (set_rx (frames ks) w)) = 0 /\
  forall k s, list.last ks = Some (k, s) ->
    antenneSelectionnee (recevoirEvenementsNextion (set_rx (frames ks) w)) = Z.of_nat k /\
    energized (recevoirEvenementsNextion (set_rx (frames ks) w)) = [k].
Proof.
  intros Hwf Hpos Hks.
  destruct (feed_frames ks w Hwf Hpos Hks) as (_ & Hp & Hev & Hlast).
  rewrite recevoirEvenementsNextion_feed. cbn [rx set_rx].
  rewrite feed_set_rx, set_rx_set_rx.
  split; [exact Hev|]. split; [exact Hp|].
  intros k s Hl. destruct (Hlast k s Hl) as [Ha He]. split; assumption.
Qed.

Lemma frames_all_decoded_witness :
  touchEvents (frames [(0%nat, 1); (3%nat, 0); (3%nat, 1)]) w_boot =
  [(0, 2); (0, 5); (0, 5)] /\
  energized (recevoirEvenementsNextion
               (set_rx (frames [(0%nat, 1); (3%nat, 0); (3%nat, 1)]) w_boot)) = [3%nat].
Proof.
  destruct (frames_all_decoded [(0%nat, 1); (3%nat, 0); (3%nat, 1)] w_boot)
    as (Hev & _ & Hlast).
  - wf_by_computation.
  - reflexivity.
  - repeat constructor; cbn [fst snd]; unfold NB_ANTENNES, is_byte; lia.
  - split; [exact Hev|]. apply (Hlast 3%nat 1). reflexivity.
Defined.

(** ** What a touch leaves behind *)

Lemma lire_selectionner k w :
  (k < NB_ANTENNES)%nat -> lireSelectionEEPROM (selectionner k w) = Z.of_nat k.
Proof.
  intros Hk. destruct (selectionner_eeprom k w) as (Hm & Hi & _).
  unfold lireSelectionEEPROM, EEPROM_read. rewrite Hm, Hi.
  antenna_cases k Hk; reflexivity.
Qed.

Lemma after_frame_energized y : energized (set_rx [] (set_pos 0 y)) = energized y.
Proof. reflexivity. Qed.

Lemma after_frame_lire y :
  lireSelectionEEPROM (set_rx [] (set_pos 0 y)) = lireSelectionEEPROM y.
Proof. reflexivity. Qed.

Lemma after_frame_cells y : eeprom (set_rx [] (set_pos 0 y)) = eeprom y.
Proof. reflexivity. Qed.

Lemma after_frame_clock y :
  horloge (set_rx [] (set_pos 0 y)) = horloge y /\
  modes (set_rx [] (set_pos 0 y)) = modes y.
Proof. split; reflexivity. Qed.

(** X5.  Selection converges, whatever the state before: a frame for button
    [k] (its state byte may be a press or a release), read from write
    position 0, leaves relay [k] as the only relay on, the deadline of [k]
    at the clock plus 2000 ms (modulo 2^32) and every other deadline at 0,
    button [k] shown "on" and every other button "off", the selection and
    the stored selection at [k], and every other EEPROM cell, the pin modes
    and the clock as they were. *)
Theorem selection_converges (k : nat) (s : Z) (w : world) :
  (k < NB_ANTENNES)%nat -> is_byte s -> wf w -> pos w = 0 -> display_idle w ->
  let w' := recevoirEvenementsNextion
              (set_rx (trame 0 (FIRST_BTN_ID + Z.of_nat k) s) w) in
  energized w' = [k] /\
  (forall i, (i < NB_ANTENNES)%nat ->
     deadline w' i = if decide (i = k) then u32 (horloge w + 2000) else 0) /\
  (forall i, (i < NB_ANTENNES)%nat -> indicator w' i = Some (bool_decide (i = k))) /\
  antenneSelectionnee w' = Z.of_nat k /\
  lireSelectionEEPROM w' = Z.of_nat k /\
  (forall a, a <> EEPROM_MAGIC_ADDR -> a <> EEPROM_SELECTED_ADDR ->
     eeprom w' a = eeprom w a) /\
  modes w' = modes w /\ horloge w' = horloge w.
Proof.
  intros Hk Hs Hwf Hpos Hidle w'. subst w'.
  rewrite (frame_selects k s w Hwf Hpos Hk Hs).
  assert (Hx : display_idle (framed 0 (FIRST_BTN_ID + Z.of_nat k) s w)).
  { apply (display_idle_same_tx w); [reflexivity|assumption]. }
  assert (Hlen : length (relayOffTime (framed 0 (FIRST_BTN_ID + Z.of_nat k) s w))
                 = NB_ANTENNES) by (destruct Hwf; assumption).
  destruct (selectionner_display k _ Hk Hx) as (_ & Hon & Hoff).
  destruct (selectionner_eeprom k (framed 0 (FIRST_BTN_ID + Z.of_nat k) s w))
    as (_ & _ & Hcells).
  destruct (selectionner_decoder k (framed 0 (FIRST_BTN_ID + Z.of_nat k) s w))
    as (_ & _ & _ & Hh & Hm).
  destruct (after_frame_clock (selectionner k (framed 0 (FIRST_BTN_ID + Z.of_nat k) s w)))
    as [Hc1 Hc2].
  split; [rewrite after_frame_energized; apply energized_selectionner; exact Hk|].
  split.
  { intros i Hi. rewrite after_frame_deadline. apply deadline_Some.
    case_decide as E.
    - subst i. apply (selectionner_deadline k _ Hk Hlen).
    - apply selectionner_deadline_off; assumption. }
  split.
  { intros i Hi. rewrite after_frame_indicator. case_bool_decide as E.
    - subst i. exact Hon.
    - apply Hoff; assumption. }
  split; [rewrite after_frame_antenne; apply selectionner_antenne; exact Hk|].
  split; [rewrite after_frame_lire; apply lire_selectionner; exact Hk|].
  split; [intros a H0 H1; rewrite after_frame_cells; apply Hcells; assumption|].
  split; [rewrite Hc2; exact Hm | rewrite Hc1; exact Hh].
Qed.

Lemma selection_converges_witness :
  energized (recevoirEvenementsNextion (set_rx (trame 0 7 0) w_boot)) = [5%nat] /\
  antenneSelectionnee (recevoirEvenementsNextion (set_rx (trame 0 7 0) w_boot)) = 5.
Proof.
  destruct (selection_converges 5 0 w_boot) as (He & _ & _ & Ha & _).
  - unfold NB_ANTENNES. lia.
  - unfold is_byte. lia.
  - wf_by_computation.
  - reflexivity.
  - split; vm_compute; reflexivity.
  - split; [exact He | exact Ha].
Defined.

(** ** The timeout scan *)

Lemma gerer_from_noop now l w :
  (forall i, i ∈ l -> expired now w i = false) -> gerer_from now l w = w.
Proof.
  induction l as [|i l IH] using rev_ind; intros Hl; [reflexivity|].
  rewrite gerer_from_snoc, IH.
  - rewrite gerer_body_eq, Hl; [reflexivity|].
    apply elem_of_app. right. apply list_elem_of_singleton. reflexivity.
  - intros j Hj. apply Hl. apply elem_of_app. auto.
Qed.

Lemma expired_after_scan w i :
  (i < NB_ANTENNES)%nat -> length (relayOffTime w) = NB_ANTENNES ->
  expired (horloge w) (gererTemporisations w) i = false.
Proof.
  intros Hi Hlen. pose proof (gererTemporisations_visit w i Hi Hlen) as Hv.
  destruct (expired (horloge w) w i) eqn:E.
  - destruct Hv as [_ Hd]. unfold expired.
    rewrite (deadline_Some _ _ _ Hd). reflexivity.
  - destruct Hv as [_ Hd]. unfold expired in *.
    rewrite (deadline_lookup _ _ _ Hd). exact E.
Qed.

(** X6.  The scan only ever switches off: it changes nothing but relay pins
    and deadlines, every pin it writes it writes LOW, so a relay that is on
    after the scan was on before; and a second scan at the same clock value
    changes nothing more. *)
Theorem scan_only_switches_off (w : world) :
  (antenneSelectionnee (gererTemporisations w) = antenneSelectionnee w /\
   eeprom (gererTemporisations w) = eeprom w /\
   tx (gererTemporisations w) = tx w /\
   modes (gererTemporisations w) = modes w /\
   pos (gererTemporisations w) = pos w /\
   buffer (gererTemporisations w) = buffer w /\
   rx (gererTemporisations w) = rx w /\
   horloge (gererTemporisations w) = horloge w) /\
  (forall p, pins (gererTemporisations w) !! p = pins w !! p \/
             pins (gererTemporisations w) !! p = Some LOW) /\
  (forall i, relay_on (gererTemporisations w) i = true -> relay_on w i = true) /\
  (length (relayOffTime w) = NB_ANTENNES ->
   gererTemporisations (gererTemporisations w) = gererTemporisations w).
Proof.
  destruct (gerer_from_inputs (horloge w) (seq 0 NB_ANTENNES) w)
    as ((Hm & Ha & Hp & Hb & He & Hh & Hr) & Ht).
  rewrite <- gererTemporisations_eq in *.
  split; [auto 10|]. split; [|split].
  - intros p. rewrite gererTemporisations_eq. apply gerer_from_pins.
  - intros i Hon. apply relay_on_true in Hon. apply relay_on_true.
    rewrite gererTemporisations_eq in Hon.
    destruct (gerer_from_pins (horloge w) (seq 0 NB_ANTENNES) w (relayPin i)) as [E|E];
      rewrite E in Hon; [exact Hon | discriminate].
  - intros Hlen.
    rewrite (gererTemporisations_eq (gererTemporisations w)), Hh.
    apply gerer_from_noop. intros i Hi. apply elem_of_antennas in Hi.
    apply expired_after_scan; assumption.
Qed.

Lemma scan_only_switches_off_witness :
  gererTemporisations (gererTemporisations (set_horloge 5000 (selectionner 1 w_boot))) =
  gererTemporisations (set_horloge 5000 (selectionner 1 w_boot)).
Proof.
  apply (scan_only_switches_off (set_horloge 5000 (selectionner 1 w_boot))).
  vm_compute. reflexivity.
Defined.

(** X7.  An idle pass of the main loop changes nothing: with an empty
    receive queue and no deadline that has elapsed, [loop] returns the state
    it was given. *)
Theorem loop_idle (w : world) :
  rx w = [] ->
  (forall i, (i < NB_ANTENNES)%nat -> deadline w i = 0 \/ horloge w < deadline w i) ->
  loop w = w.
Proof.
  intros Hrx Hd. unfold loop.
  assert (E : recevoirEvenementsNextion w = w).
  { unfold recevoirEvenementsNextion. rewrite Hrx. cbn [recevoirBoucle].
    destruct w. simpl in Hrx. subst. reflexivity. }
  rewrite E, gererTemporisations_eq. apply gerer_from_noop.
  intros i Hi. apply elem_of_antennas in Hi. unfold expired.
  destruct (Hd i Hi) as [H0|Hlt].
  - rewrite H0. reflexivity.
  - apply andb_false_iff. right. apply Z.leb_gt. exact Hlt.
Qed.

Lemma loop_idle_witness :
  loop (set_horloge 900 (selectionner 2 w_boot)) =
  set_horloge 900 (selectionner 2 w_boot).
Proof.
  apply (loop_idle (set_horloge 900 (selectionner 2 w_boot))).
  - reflexivity.
  - intros i Hi. unfold NB_ANTENNES in Hi.
    destruct i as [|[|[|[|[|[|[|[|i]]]]]]]];
      [left | left | right | left | left | left | left | left | exfalso; lia];
      vm_compute; reflexivity.
Defined.

Lemma pulse_without_wrap_witness :
  relay_on (scans [600; 1200; 2499] (selectionner 4 w_boot)) 4 = true /\
  relay_on (gererTemporisations
              (set_horloge 2500 (scans [600; 1200; 2499] (selectionner 4 w_boot)))) 4
  = false.
Proof.
  destruct (pulse_without_wrap 4 w_boot [600; 1200; 2499] 2500) as [(H1 & _) (H2 & _)].
  - unfold NB_ANTENNES. lia.
  - wf_by_computation.
  - split; vm_compute; reflexivity.
  - vm_compute. discriminate.
  - vm_compute. reflexivity.
  - repeat constructor; vm_compute; reflexivity.
  - vm_compute. discriminate.
  - split; [exact H1 | exact H2].
Defined.

(** ** The durable store, again *)


(** X8.  The last save wins and only the two cells of the record are
    written: after [sauvegarderSelection k] then [sauvegarderSelection j],
    [lireSelectionEEPROM] returns [j], and every cell other than 0 and 1
    holds what it held before. *)
Theorem save_last_wins (j k : nat) (w : world) :
  (j < NB_ANTENNES)%nat ->
  lireSelectionEEPROM (sauvegarderSelection j (sauvegarderSelection k w)) = Z.of_nat j /\
  forall a, a <> EEPROM_MAGIC_ADDR -> a <> EEPROM_SELECTED_ADDR ->
    eeprom (sauvegarderSelection j (sauvegarderSelection k w)) a = eeprom w a.
Proof.
  intros Hj.
  destruct (sauvegarderSelection_eq k w) as (e1 & -> & H1).
  destruct (sauvegarderSelection_eq j (set_eeprom (fun _ => e1) w)) as (e2 & -> & H2).
  unfold lireSelectionEEPROM, EEPROM_read. cbn [eeprom set_eeprom] in *.
  split.
  - rewrite !H2. simpl decide. cbn match.
    antenna_cases j Hj; reflexivity.
  - intros a Ha0 Ha1. rewrite H2, H1. repeat case_decide; congruence.
Qed.

Lemma save_last_wins_witness :
  lireSelectionEEPROM (sauvegarderSelection 6 (sauvegarderSelection 2 w_boot)) = 6.
Proof.
  apply (save_last_wins 6 2 w_boot). unfold NB_ANTENNES. lia.
Defined.



(** X10.  What [lireSelectionEEPROM] returns is decided by the record alone:
    with a byte in the index cell, it returns the index [k] exactly when the
    cells hold (0xA5, k), and otherwise -1; it never returns an index out of
    range. *)
Theorem load_characterised (w : world) :
  is_byte (EEPROM_read EEPROM_SELECTED_ADDR w) ->
  (forall k, (k < NB_ANTENNES)%nat ->
     lireSelectionEEPROM w = Z.of_nat k <->
     EEPROM_read EEPROM_MAGIC_ADDR w = EEPROM_MAGIC_VALUE /\
     EEPROM_read EEPROM_SELECTED_ADDR w = Z.of_nat k) /\
  (lireSelectionEEPROM w = -1 \/ 0 <= lireSelectionEEPROM w < Z.of_nat NB_ANTENNES).
Proof.
  intros Hb. unfold lireSelectionEEPROM, is_byte, NB_ANTENNES in *.
  destruct (EEPROM_read EEPROM_MAGIC_ADDR w =? EEPROM_MAGIC_VALUE) eqn:Em;
    cbn [negb].
  - apply Z.eqb_eq in Em.
    destruct (Z.of_nat 8 <=? EEPROM_read EEPROM_SELECTED_ADDR w) eqn:Ei.
    + apply Z.leb_le in Ei. split; [|left; reflexivity].
      intros k Hk. split; [lia|]. intros [_ E]. lia.
    + apply Z.leb_gt in Ei.
      assert (Hi8 : i8 (EEPROM_read EEPROM_SELECTED_ADDR w) =
                    EEPROM_read EEPROM_SELECTED_ADDR w).
      { unfold i8. rewrite Z.mod_small by lia.
        destruct (_ <? 128) eqn:E; [reflexivity|]. apply Z.ltb_ge in E. lia. }
      rewrite Hi8. split; [|right; lia].
      intros k Hk. split; [intros E; auto | intros [_ E]; exact E].
  - apply Z.eqb_neq in Em. split; [|left; reflexivity].
    intros k Hk. split; [lia | intros [E _]; contradiction].
Qed.

Lemma load_characterised_witness :
  lireSelectionEEPROM (selectionner 7 w_boot) = 7.
Proof.
  destruct (load_characterised (selectionner 7 w_boot)) as [H _].
  - vm_compute. split; [discriminate | reflexivity].
  - apply (H 7%nat); [unfold NB_ANTENNES; lia|].
    split; vm_compute; reflexivity.
Defined.

(** ** Start-up, from any state *)

Lemma setup_from_modes l w i :
  i ∈ l -> modes (setup_from l w) !! relayPin i = Some OUTPUT.
Proof.
  induction l as [|j l IH] using rev_ind; intros Hin; [inversion Hin|].
  rewrite setup_from_snoc. simpl.
  destruct (decide (relayPin j = relayPin i)) as [->|Hne].
  - apply lookup_insert_eq.
  - rewrite lookup_insert_ne by assumption. apply IH.
    apply elem_of_app in Hin as [Hin|Hin]; [assumption|].
    apply list_elem_of_singleton in Hin. congruence.
Qed.

(** The fields [setup] leaves to the first loop and to the load. *)
Lemma setup_fields w :
  modes (setup w) = modes (setup_loaded w) /\
  antenneSelectionnee (setup w) = lireSelectionEEPROM w /\
  pos (setup w) = pos w /\ buffer (setup w) = buffer w /\
  eeprom (setup w) = eeprom w /\ horloge (setup w) = u32 (horloge w + 500) /\
  rx (setup w) = rx w.
Proof.
  destruct (setup_from_rest (seq 0 NB_ANTENNES) w)
    as ((_ & _ & Hp & Hb & He & Hh & Hr) & _).
  cbn [set_modes pos buffer eeprom horloge rx] in Hp, Hb, He, Hh, Hr.
  assert (Hl : modes (setup_loaded w) = modes (setup_loaded w) /\
               antenneSelectionnee (setup_loaded w) = lireSelectionEEPROM w /\
               pos (setup_loaded w) = pos w /\ buffer (setup_loaded w) = buffer w /\
               eeprom (setup_loaded w) = eeprom w /\
               horloge (setup_loaded w) = u32 (horloge w + 500) /\
               rx (setup_loaded w) = rx w).
  { unfold setup_loaded, set_antenneSelectionnee, delay, set_horloge.
    cbn [modes antenneSelectionnee pos buffer eeprom horloge rx].
    rewrite Hh. auto 10. }
  rewrite setup_eq. destruct (_ && _); [|exact Hl].
  rewrite setBoutonOn_eq, exclusivite_eq. unfold set_tx.
  cbn [modes antenneSelectionnee pos buffer eeprom horloge rx].
  match goal with
  | |- context [exclusivite_from ?k ?l ?x] =>
      destruct (exclusivite_from_inputs k l x) as (E1 & E2 & E3 & E4 & E5 & E6 & E7)
  end.
  rewrite E1, E2, E3, E4, E5, E6, E7. exact Hl.
Qed.

(** X11.  Start-up from any state: every relay pin is an OUTPUT driven LOW,
    the selection in RAM is what [lireSelectionEEPROM] returned, no EEPROM
    cell is written, the decoder's window and the receive queue are not
    touched, and 500 ms have gone by. *)
Theorem setup_effects (w : world) :
  (forall i, (i < NB_ANTENNES)%nat ->
     modes (setup w) !! relayPin i = Some OUTPUT /\
     pins (setup w) !! relayPin i = Some LOW) /\
  antenneSelectionnee (setup w) = lireSelectionEEPROM w /\
  eeprom (setup w) = eeprom w /\
  pos (setup w) = pos w /\ buffer (setup w) = buffer w /\ rx (setup w) = rx w /\
  horloge (setup w) = u32 (horloge w + 500).
Proof.
  destruct (setup_fields w) as (Hm & Ha & Hp & Hb & He & Hh & Hr).
  split; [|auto 10].
  intros i Hi. split; [|apply setup_low; exact Hi].
  rewrite Hm. unfold setup_loaded, set_antenneSelectionnee, delay, set_horloge.
  cbn [modes]. apply setup_from_modes. apply elem_of_antennas. exact Hi.
Qed.

Lemma setup_effects_witness :
  modes (setup (selectionner 2 w_boot)) !! relayPin 2 = Some OUTPUT /\
  pins (setup (selectionner 2 w_boot)) !! relayPin 2 = Some LOW.
Proof.
  apply (setup_effects (selectionner 2 w_boot)). unfold NB_ANTENNES. lia.
Defined.

(** ** What every reachable state satisfies *)

Lemma lire_same_eeprom w w' :
  eeprom w' = eeprom w -> lireSelectionEEPROM w' = lireSelectionEEPROM w.
Proof. unfold lireSelectionEEPROM, EEPROM_read. intros ->. reflexivity. Qed.

Lemma relay_on_same_pins w w' i : pins w' = pins w -> relay_on w' i = relay_on w i.
Proof. unfold relay_on. intros ->. reflexivity. Qed.

Lemma deadline_same w w' i :
  relayOffTime w' = relayOffTime w -> deadline w' i = deadline w i.
Proof. unfold deadline. intros ->. reflexivity. Qed.

(** Coherence looks at the outputs and the store only. *)
Lemma coherent_ext w w' :
  wf w' -> pins w' = pins w -> relayOffTime w' = relayOffTime w ->
  antenneSelectionnee w' = antenneSelectionnee w -> eeprom w' = eeprom w ->
  tx w' = tx w -> coherent w -> coherent w'.
Proof.
  intros Hwf Hp Hr Ha He Ht [_ Hidle Hst Hrel Hdl Hdisp].
  split.
  - exact Hwf.
  - exact (display_idle_same_tx w w' Ht Hidle).
  - rewrite Ha, (lire_same_eeprom _ _ He). exact Hst.
  - intros i Hi. rewrite (relay_on_same_pins _ _ i Hp), Ha. apply Hrel. exact Hi.
  - intros i Hi. rewrite (relay_on_same_pins _ _ i Hp), (deadline_same _ _ i Hr).
    apply Hdl. exact Hi.
  - rewrite Ha, Ht. destruct Hdisp as [(k & Hk & Hs & Hind)|Hn]; [left|right; exact Hn].
    exists k. split; [exact Hk|]. split; [exact Hs|].
    intros i Hi. rewrite (indicator_same_tx _ _ i Ht). apply Hind. exact Hi.
Qed.

Lemma relay_on_set_pos v y i : relay_on (set_pos v y) i = relay_on y i.
Proof. reflexivity. Qed.

Lemma deadline_set_pos v y i : deadline (set_pos v y) i = deadline y i.
Proof. reflexivity. Qed.

Lemma indicator_set_pos v y i : indicator (set_pos v y) i = indicator y i.
Proof. reflexivity. Qed.

Lemma display_idle_set_pos v y : display_idle y -> display_idle (set_pos v y).
Proof. apply display_idle_same_tx. reflexivity. Qed.

Lemma lire_set_pos v y : lireSelectionEEPROM (set_pos v y) = lireSelectionEEPROM y.
Proof. reflexivity. Qed.

(** A selection establishes coherence by itself. *)
Lemma coherent_after_selection k x :
  (k < NB_ANTENNES)%nat -> wf (set_pos 0 x) -> display_idle x ->
  coherent (set_pos 0 (selectionner k x)).
Proof.
  intros Hk Hwf Hidle. pose proof Hwf as [Hlen _ _].
  change (length (relayOffTime x) = NB_ANTENNES) in Hlen.
  destruct (selectionner_display k x Hk Hidle) as (Hidle' & Hon & Hoff).
  split.
  - apply wf_after_selection; assumption.
  - apply display_idle_set_pos. exact Hidle'.
  - rewrite antenne_set_pos, lire_set_pos.
    rewrite selectionner_antenne, lire_selectionner by exact Hk. reflexivity.
  - intros i Hi. rewrite relay_on_set_pos, antenne_set_pos. intros Hrel.
    rewrite selectionner_antenne by exact Hk.
    destruct (decide (i = k)) as [->|Hne]; [reflexivity|].
    rewrite relay_on_false in Hrel by (apply selectionner_relay_off; assumption).
    discriminate.
  - intros i Hi. rewrite relay_on_set_pos, deadline_set_pos. intros Hd.
    destruct (decide (i = k)) as [->|Hne].
    + apply relay_on_true, selectionner_relay_on.
    + exfalso. apply Hd. apply deadline_Some.
      apply selectionner_deadline_off; assumption.
  - left. exists k. split; [exact Hk|].
    split; [rewrite antenne_set_pos; apply selectionner_antenne; exact Hk|].
    intros i Hi. rewrite indicator_set_pos.
    case_bool_decide as E; [subst i; exact Hon | apply Hoff; assumption].
Qed.

Lemma coherent_recevoirOctet c w : coherent w -> coherent (recevoirOctet c w).
Proof.
  intros Hc. pose proof (wf_recevoirOctet c w (coh_wf w Hc)) as Hwf'.
  destruct (recevoirOctet_cases c w) as [E|[E|[E|(k & Hk & E)]]];
    rewrite E in Hwf' |- *.
  - exact Hc.
  - apply (coherent_ext w); try reflexivity; assumption.
  - apply (coherent_ext w); try reflexivity; assumption.
  - apply coherent_after_selection; [exact Hk | |].
    + destruct (coh_wf w Hc) as [Hr Hb _].
      apply wf_set_pos; [lia | exact Hr |].
      change (length (<[Z.to_nat (pos w) := c]> (buffer w)) = 7%nat).
      rewrite length_insert. exact Hb.
    + apply (display_idle_same_tx w); [reflexivity | apply (coh_idle w Hc)].
Qed.

Lemma coherent_feed l w : coherent w -> coherent (feed l w).
Proof.
  revert w. induction l as [|c l IH]; intros w Hc; [exact Hc|].
  unfold feed in *. cbn [foldl]. apply IH. apply coherent_recevoirOctet. exact Hc.
Qed.

Lemma wf_set_rx q w : wf w -> wf (set_rx q w).
Proof. intros [H1 H2 H3]. split; assumption. Qed.

Lemma wf_set_horloge t w : wf w -> wf (set_horloge t w).
Proof. intros [H1 H2 H3]. split; assumption. Qed.

Lemma coherent_set_rx q w : coherent w -> coherent (set_rx q w).
Proof.
  intros Hc. apply (coherent_ext w); try reflexivity; [|exact Hc].
  apply wf_set_rx. apply (coh_wf w Hc).
Qed.

Lemma coherent_set_horloge t w : coherent w -> coherent (set_horloge t w).
Proof.
  intros Hc. apply (coherent_ext w); try reflexivity; [|exact Hc].
  apply wf_set_horloge. apply (coh_wf w Hc).
Qed.

Lemma coherent_recevoir w : coherent w -> coherent (recevoirEvenementsNextion w).
Proof.
  intros Hc. rewrite recevoirEvenementsNextion_feed.
  apply coherent_set_rx, coherent_feed. exact Hc.
Qed.

Lemma coherent_gerer w : coherent w -> coherent (gererTemporisations w).
Proof.
  intros [Hwf Hidle Hst Hrel Hdl Hdisp]. pose proof Hwf as [Hlen Hb Hp].
  destruct (gerer_from_inputs (horloge w) (seq 0 NB_ANTENNES) w)
    as ((_ & Ha & Hpos & Hbuf & He & _ & _) & Ht).
  rewrite <- gererTemporisations_eq in *.
  assert (Hon : forall i, (i < NB_ANTENNES)%nat ->
            relay_on (gererTemporisations w) i = true ->
            relay_on w i = true /\ deadline (gererTemporisations w) i = deadline w i).
  { intros i Hi Hr. apply relay_on_true in Hr.
    pose proof (gererTemporisations_visit w i Hi Hlen) as Hv.
    destruct (expired (horloge w) w i).
    - destruct Hv as [Hv _]. rewrite Hv in Hr. discriminate.
    - destruct Hv as [Hv Hd]. rewrite Hv in Hr.
      split; [apply relay_on_true; exact Hr | apply deadline_lookup; exact Hd]. }
  split.
  - split; [|rewrite Hbuf; exact Hb | rewrite Hpos; exact Hp].
    destruct (gererTemporisations_latched w) as (_ & _ & _ & _ & Hl).
    rewrite Hl. exact Hlen.
  - exact (display_idle_same_tx w _ Ht Hidle).
  - rewrite Ha, (lire_same_eeprom _ _ He). exact Hst.
  - intros i Hi Hr. rewrite Ha. apply Hrel; [exact Hi|]. apply (Hon i Hi Hr).
  - intros i Hi Hd.
    pose proof (gererTemporisations_visit w i Hi Hlen) as Hv.
    destruct (expired (horloge w) w i).
    + destruct Hv as [_ Hz]. exfalso. apply Hd. apply deadline_Some. exact Hz.
    + destruct Hv as [Hv Hz]. apply relay_on_true. rewrite Hv. apply relay_on_true.
      apply Hdl; [exact Hi|]. rewrite <- (deadline_lookup _ _ _ Hz). exact Hd.
  - rewrite Ha, Ht. destruct Hdisp as [(k & Hk & Hs & Hind)|Hn]; [left|right; exact Hn].
    exists k. split; [exact Hk|]. split; [exact Hs|].
    intros i Hi. rewrite (indicator_same_tx _ _ i Ht). apply Hind. exact Hi.
Qed.

Lemma coherent_react w s : coherent w -> coherent (react w s).
Proof.
  destruct s as [ms|bytes| |]; cbn [react].
  - apply coherent_set_horloge.
  - apply coherent_set_rx.
  - apply coherent_recevoir.
  - apply coherent_gerer.
Qed.

Lemma coherent_run w trace : coherent w -> coherent (run w trace).
Proof.
  revert w. induction trace as [|s trace IH]; intros w Hc; [exact Hc|].
  unfold run in *. cbn [foldl]. apply IH. apply coherent_react. exact Hc.
Qed.

Lemma setup_power_on_cases e :
  (exists k, (k < NB_ANTENNES)%nat /\ lireSelectionEEPROM (power_on e) = Z.of_nat k /\
             setup (power_on e) =
             setBoutonOn k (exclusivite k (setup_loaded (power_on e)))) \/
  (~ 0 <= lireSelectionEEPROM (power_on e) < Z.of_nat NB_ANTENNES /\
   setup (power_on e) = setup_loaded (power_on e)).
Proof.
  rewrite setup_eq.
  destruct (0 <=? lireSelectionEEPROM (power_on e)) eqn:E0; cbn [andb].
  - destruct (lireSelectionEEPROM (power_on e) <? i8 (Z.of_nat NB_ANTENNES)) eqn:E1.
    + apply Z.leb_le in E0. apply Z.ltb_lt in E1.
      change (i8 (Z.of_nat NB_ANTENNES)) with 8 in E1.
      left. exists (Z.to_nat (lireSelectionEEPROM (power_on e))).
      split; [unfold NB_ANTENNES; lia|]. split; [lia|].
      unfold u8. rewrite Z.mod_small by lia. reflexivity.
    + apply Z.ltb_ge in E1. change (i8 (Z.of_nat NB_ANTENNES)) with 8 in E1.
      right. split; [unfold NB_ANTENNES; lia | reflexivity].
  - apply Z.leb_gt in E0. right. split; [lia | reflexivity].
Qed.

Lemma replay_idle k x :
  (k < NB_ANTENNES)%nat -> display_idle x ->
  display_idle (setBoutonOn k (exclusivite k x)).
Proof.
  intros Hk Hidle. rewrite exclusivite_eq.
  destruct (exclusivite_from_display k (seq 0 NB_ANTENNES) x Hidle)
    as ([Hp Hf] & _ & _).
  { intros i. apply elem_of_antennas. }
  assert (Htx : tx (setBoutonOn k (exclusivite_from k (seq 0 NB_ANTENNES) x)) =
                tx (exclusivite_from k (seq 0 NB_ANTENNES) x) ++ cmd k 1)
    by apply setBoutonOn_tx.
  unfold display_idle. rewrite (display_app _ _ _ Htx), nextion_cmd by auto.
  split; reflexivity.
Qed.

Lemma indicator_unsent w i : tx w = [] -> indicator w i = None.
Proof. unfold indicator, display. intros ->. reflexivity. Qed.

Lemma setup_loaded_power_on e :
  relayOffTime (setup_loaded (power_on e)) = replicate NB_ANTENNES 0 /\
  tx (setup_loaded (power_on e)) = [] /\
  pos (setup_loaded (power_on e)) = 0 /\
  buffer (setup_loaded (power_on e)) = replicate 7 0 /\
  eeprom (setup_loaded (power_on e)) = e /\
  antenneSelectionnee (setup_loaded (power_on e)) = lireSelectionEEPROM (power_on e).
Proof.
  destruct (setup_loaded_fields (power_on e)) as (Hr & Ht & Ha).
  destruct (setup_from_rest (seq 0 NB_ANTENNES) (power_on e))
    as ((_ & _ & Hp & Hb & He & _ & _) & _).
  cbn [set_modes pos buffer eeprom] in Hp, Hb, He.
  repeat split; try assumption.
Qed.

Lemma coherent_setup_loaded e :
  ~ 0 <= lireSelectionEEPROM (power_on e) < Z.of_nat NB_ANTENNES ->
  coherent (setup_loaded (power_on e)).
Proof.
  intros Hn.
  destruct (setup_loaded_power_on e) as (Hr & Ht & Hp & Hb & He & Ha).
  assert (Hd : forall i, deadline (setup_loaded (power_on e)) i = 0).
  { intros i. unfold deadline. rewrite Hr, nth_lookup.
    destruct (replicate NB_ANTENNES 0 !! i) eqn:E; [|reflexivity].
    apply lookup_replicate in E as [-> _]. reflexivity. }
  split.
  - split; [rewrite Hr; reflexivity | rewrite Hb; reflexivity | rewrite Hp; lia].
  - apply (display_idle_same_tx (power_on e)); [exact Ht | apply power_on_idle].
  - rewrite Ha. symmetry. apply lire_same_eeprom. exact He.
  - intros i Hi Hon. rewrite relay_on_false in Hon by (apply setup_loaded_low; exact Hi).
    discriminate.
  - intros i Hi Hne. exfalso. apply Hne. apply Hd.
  - right. rewrite Ha. split; assumption.
Qed.

Lemma coherent_setup_replay e k :
  (k < NB_ANTENNES)%nat -> lireSelectionEEPROM (power_on e) = Z.of_nat k ->
  coherent (setBoutonOn k (exclusivite k (setup_loaded (power_on e)))).
Proof.
  intros Hk Hl.
  destruct (setup_loaded_power_on e) as (Hr & Ht & Hp & Hb & He & Ha).
  assert (Hidle : display_idle (setup_loaded (power_on e))).
  { apply (display_idle_same_tx (power_on e)); [exact Ht | apply power_on_idle]. }
  destruct (replay_display k _ Hk Hidle) as [Hon Hoff].
  pose proof (replay_idle k _ Hk Hidle) as Hidle'.
  destruct (exclusivite_from_inputs k (seq 0 NB_ANTENNES) (setup_loaded (power_on e)))
    as (_ & Ea & Ep & Eb & Ee & _ & _).
  rewrite <- exclusivite_eq in *.
  assert (Hlow : forall i, (i < NB_ANTENNES)%nat ->
            relay_on (setBoutonOn k (exclusivite k (setup_loaded (power_on e)))) i = false).
  { intros i Hi. apply relay_on_false.
    rewrite setBoutonOn_eq. unfold set_tx. cbn [pins]. rewrite exclusivite_eq.
    destruct (exclusivite_from_pins k (seq 0 NB_ANTENNES)
                (setup_loaded (power_on e)) (relayPin i)) as [E|[E _]]; rewrite E;
      [apply setup_loaded_low; exact Hi | reflexivity]. }
  assert (Hd : forall i, (i < NB_ANTENNES)%nat ->
            deadline (setBoutonOn k (exclusivite k (setup_loaded (power_on e)))) i = 0).
  { intros i Hi. apply deadline_Some.
    rewrite setBoutonOn_eq. unfold set_tx. cbn [relayOffTime]. rewrite exclusivite_eq.
    destruct (decide (i = k)) as [->|Hne].
    - rewrite exclusivite_from_deadline_actif, Hr. apply lookup_replicate_2. exact Hk.
    - apply exclusivite_from_deadline_off;
        [apply elem_of_antennas; exact Hi | exact Hne |].
      rewrite Hr, length_replicate. exact Hi. }
  assert (Hfld : relayOffTime (setBoutonOn k (exclusivite k (setup_loaded (power_on e))))
                 = relayOffTime (exclusivite k (setup_loaded (power_on e))) /\
                 antenneSelectionnee (setBoutonOn k (exclusivite k (setup_loaded (power_on e))))
                 = antenneSelectionnee (exclusivite k (setup_loaded (power_on e))) /\
                 pos (setBoutonOn k (exclusivite k (setup_loaded (power_on e))))
                 = pos (exclusivite k (setup_loaded (power_on e))) /\
                 buffer (setBoutonOn k (exclusivite k (setup_loaded (power_on e))))
                 = buffer (exclusivite k (setup_loaded (power_on e))) /\
                 eeprom (setBoutonOn k (exclusivite k (setup_loaded (power_on e))))
                 = eeprom (exclusivite k (setup_loaded (power_on e)))).
  { rewrite setBoutonOn_eq. generalize (exclusivite k (setup_loaded (power_on e))).
    intros y. repeat split. }
  destruct Hfld as (Fr & Fa & Fp & Fb & Fe).
  split.
  - split.
    + rewrite Fr, exclusivite_eq, exclusivite_from_length, Hr. reflexivity.
    + rewrite Fb, Eb, Hb. reflexivity.
    + rewrite Fp, Ep, Hp. lia.
  - exact Hidle'.
  - rewrite Fa, Ea, Ha. symmetry. apply lire_same_eeprom. rewrite Fe, Ee. exact He.
  - intros i Hi Hon'. rewrite Hlow in Hon' by exact Hi. discriminate.
  - intros i Hi Hne. exfalso. apply Hne. apply Hd. exact Hi.
  - left. exists k. split; [exact Hk|]. split; [rewrite Fa, Ea, Ha; exact Hl|].
    intros i Hi. case_bool_decide as E; [subst i; exact Hon | apply Hoff; assumption].
Qed.

Lemma coherent_boot e : coherent (setup (power_on e)).
Proof.
  destruct (setup_power_on_cases e) as [(k & Hk & Hl & ->)|(Hn & ->)].
  - apply coherent_setup_replay; assumption.
  - apply coherent_setup_loaded; assumption.
Qed.

Lemma coherent_reachable e trace : coherent (reached e trace).
Proof. apply coherent_run, coherent_boot. Qed.

(** What the buttons show, read off the selection. *)
Lemma coherent_indicator w i :
  coherent w -> (i < NB_ANTENNES)%nat ->
  indicator w i =
  if bool_decide (0 <= antenneSelectionnee w < Z.of_nat NB_ANTENNES)
  then Some (bool_decide (antenneSelectionnee w = Z.of_nat i)) else None.
Proof.
  intros Hc Hi. destruct (coh_display w Hc) as [(k & Hk & Hs & Hind)|[Hn Ht]].
  - rewrite bool_decide_eq_true_2 by (rewrite Hs; unfold NB_ANTENNES in *; lia).
    rewrite (Hind i Hi), Hs. f_equal. apply bool_decide_ext. lia.
  - rewrite bool_decide_eq_false_2 by exact Hn. apply indicator_unsent. exact Ht.
Qed.

Lemma coherent_no_deadline w i :
  coherent w -> (i < NB_ANTENNES)%nat -> relay_on w i = false -> deadline w i = 0.
Proof.
  intros Hc Hi Hoff. destruct (decide (deadline w i = 0)) as [E|E]; [exact E|].
  rewrite (coh_deadline w Hc i Hi E) in Hoff. discriminate.
Qed.

(** X12.  No array is ever indexed out of bounds: in every state the sketch
    can reach from power-on, and after every further iteration of the
    receive loop, the write position is below 7, the window has its 7 cells
    and the deadline table its 8. *)
Theorem arrays_in_bounds (e : Z -> Z) (trace : list stimulus) :
  forall l,
    0 <= pos (feed l (reached e trace)) < 7 /\
    length (buffer (feed l (reached e trace))) = 7%nat /\
    length (relayOffTime (feed l (reached e trace))) = NB_ANTENNES.
Proof.
  intros l.
  destruct (coh_wf _ (coherent_feed l _ (coherent_reachable e trace))) as [H1 H2 H3].
  auto.
Qed.

(** X13.  The selection in RAM and the stored selection never part: in
    every reachable state [antenneSelectionnee] is what [lireSelectionEEPROM]
    would return. *)
Theorem selection_matches_store (e : Z -> Z) (trace : list stimulus) :
  antenneSelectionnee (reached e trace) = lireSelectionEEPROM (reached e trace).
Proof. apply (coh_stored _ (coherent_reachable e trace)). Qed.

(** X14.  Only the selected antenna can be energized: in every reachable
    state, a relay that is on is the relay of [antenneSelectionnee], and a
    deadline other than 0 belongs to a relay that is on. *)
Theorem energized_is_selected (e : Z -> Z) (trace : list stimulus) (i : nat) :
  (i < NB_ANTENNES)%nat ->
  (relay_on (reached e trace) i = true ->
   antenneSelectionnee (reached e trace) = Z.of_nat i) /\
  (deadline (reached e trace) i <> 0 -> relay_on (reached e trace) i = true).
Proof.
  intros Hi. split.
  - apply (coh_relay _ (coherent_reachable e trace)). exact Hi.
  - apply (coh_deadline _ (coherent_reachable e trace)). exact Hi.
Qed.

(** X15.  The display mirrors the selection: in every reachable state the
    display is between two instructions, and button [i] shows "on" exactly
    when [i] is the selected antenna and "off" when another one is; while
    nothing is selected, no button has ever been assigned. *)
Theorem display_mirrors_selection (e : Z -> Z) (trace : list stimulus) (i : nat) :
  (i < NB_ANTENNES)%nat ->
  display_idle (reached e trace) /\
  indicator (reached e trace) i =
  if bool_decide (0 <= antenneSelectionnee (reached e trace) < Z.of_nat NB_ANTENNES)
  then Some (bool_decide (antenneSelectionnee (reached e trace) = Z.of_nat i)) else None.
Proof.
  intros Hi. split.
  - apply (coh_idle _ (coherent_reachable e trace)).
  - apply coherent_indicator; [apply coherent_reachable | exact Hi].
Qed.

(** X16.  A power cycle restores the selection and the display and nothing
    else: restarting on the EEPROM of any reachable state gives the same
    [antenneSelectionnee] and the same state of every button, with every
    relay off and no deadline pending. *)
Theorem power_cycle_restores (e : Z -> Z) (trace : list stimulus) (i : nat) :
  (i < NB_ANTENNES)%nat ->
  antenneSelectionnee (setup (power_on (eeprom (reached e trace)))) =
  antenneSelectionnee (reached e trace) /\
  indicator (setup (power_on (eeprom (reached e trace)))) i =
  indicator (reached e trace) i /\
  relay_on (setup (power_on (eeprom (reached e trace)))) i = false /\
  deadline (setup (power_on (eeprom (reached e trace)))) i = 0.
Proof.
  intros Hi.
  pose proof (coherent_reachable e trace) as Hc.
  pose proof (coherent_boot (eeprom (reached e trace))) as Hc'.
  assert (Ha : antenneSelectionnee (setup (power_on (eeprom (reached e trace)))) =
               antenneSelectionnee (reached e trace)).
  { rewrite (coh_stored _ Hc), (coh_stored _ Hc').
    apply lire_same_eeprom.
    destruct (setup_fields (power_on (eeprom (reached e trace)))) as (_ & _ & _ & _ & He & _).
    exact He. }
  assert (Hoff : relay_on (setup (power_on (eeprom (reached e trace)))) i = false).
  { apply relay_on_false, setup_low. exact Hi. }
  split; [exact Ha|]. split; [|split; [exact Hoff|]].
  - rewrite (coherent_indicator _ i Hc' Hi), (coherent_indicator _ i Hc Hi), Ha.
    reflexivity.
  - apply coherent_no_deadline; assumption.
Qed.

Lemma energized_is_selected_witness :
  antenneSelectionnee
    (reached (fun _ => 0xFF) [Arrive (trame 0 4 1); Receive; Tick 100; Scan])
  = 2.
Proof.
  apply (energized_is_selected (fun _ => 0xFF)
           [Arrive (trame 0 4 1); Receive; Tick 100; Scan] 2).
  - unfold NB_ANTENNES. lia.
  - vm_compute. reflexivity.
Defined.

Lemma display_mirrors_selection_witness :
  indicator
    (reached (fun _ => 0xFF) [Arrive (trame 0 4 1); Receive; Tick 3000; Scan]) 2
  = Some true.
Proof.
  destruct (display_mirrors_selection (fun _ => 0xFF)
              [Arrive (trame 0 4 1); Receive; Tick 3000; Scan] 2) as [_ H].
  - unfold NB_ANTENNES. lia.
  - rewrite H. vm_compute. reflexivity.
Defined.

Lemma power_cycle_restores_witness :
  antenneSelectionnee
    (setup (power_on (eeprom
       (reached (fun _ => 0xFF) [Arrive (trame 0 4 1); Receive])))) = 2.
Proof.
  destruct (power_cycle_restores (fun _ => 0xFF) [Arrive (trame 0 4 1); Receive] 2)
    as [H _].
  - unfold NB_ANTENNES. lia.
  - rewrite H. vm_compute. reflexivity.
Defined.
